(** * iqtoy: the string-addressed reflection facility of [demo.cpp]

    A shallow embedding of [namespace reflection] of [demo.cpp]: the
    leaf codecs ([TypeTraits]), the per-field accessors ([MemberInfo]),
    the per-type [ObjectRegistry], the [Reflectable] life cycle, the
    [Reflector] and the command dispatcher
    [ReflectionParser::parseAndExecute], followed by the properties of
    the specification that were checked against them. *)

From Stdlib Require Import ZArith String Ascii List Lia DecimalString DecimalPos.
From stdpp Require Import base option gmap strings list.

Local Open Scope string_scope.
Local Open Scope Z_scope.
Local Open Scope stdpp_scope.

(** ** Exceptions

    The exceptions the code can raise: [std::invalid_argument] (thrown
    by [_register_self] and [registerAs]), [boost::bad_lexical_cast]
    (thrown by [boost::lexical_cast]) and [std::out_of_range] (thrown by
    [std::string::substr]).  [invalid_pointer] is not a C++ exception: it
    marks an access through a pointer to an object that is not alive
    (undefined behaviour in C++), which no [catch] clause intercepts. *)

Inductive exception :=
  | invalid_argument
  | bad_lexical_cast
  | out_of_range
  | invalid_pointer.

Inductive result (X : Type) :=
  | Ok (x : X)
  | Throw (e : exception).
Arguments Ok {X} x.
Arguments Throw {X} e.

(** ** [std::string] operations used by the code *)

(** [s.find(ch)]: the position of the first [ch] in [s]; [None] is
    [std::string::npos]. *)
Fixpoint find (ch : ascii) (s : string) : option nat :=
  match s with
  | EmptyString => None
  | String c s' => if Ascii.eqb c ch then Some O else S <$> find ch s'
  end.

Fixpoint drop_chars (pos : nat) (s : string) : string :=
  match pos, s with
  | O, _ => s
  | S pos', EmptyString => EmptyString
  | S pos', String _ s' => drop_chars pos' s'
  end.

Fixpoint take_chars (n : nat) (s : string) : string :=
  match n, s with
  | O, _ => EmptyString
  | S n', EmptyString => EmptyString
  | S n', String c s' => String c (take_chars n' s')
  end.

(** [s.substr(pos, n)], with [n = None] for the defaulted count
    ([npos]): throws [std::out_of_range] when [pos > s.size()]. *)
Definition substr (s : string) (pos : nat) (n : option nat) : result string :=
  if (pos <=? String.length s)%nat then
    Ok (match n with
        | Some n => take_chars n (drop_chars pos s)
        | None => drop_chars pos s
        end)
  else Throw out_of_range.

(** [lacks ch s]: the character [ch] does not occur in [s]. *)
Definition lacks (ch : ascii) (s : string) : Prop := find ch s = None.

Global Instance lacks_dec ch s : Decision (lacks ch s).
Proof. unfold lacks. apply _. Defined.

(** [ReflectionParser::tokenize]: [std::getline(iss, token, ' ')] reads
    up to the next space (or the end of the input) into [token]; empty
    tokens are skipped.  [tokenize_from token s] is the loop with the
    characters read so far for the current token in [token]. *)
Fixpoint tokenize_from (token : string) (s : string) : list string :=
  match s with
  | EmptyString => if decide (token = "") then [] else [token]
  | String c s' =>
      if Ascii.eqb c " " then
        if decide (token = "") then tokenize_from "" s'
        else token :: tokenize_from "" s'
      else tokenize_from (token +:+ String c "") s'
  end.

Definition tokenize (cmd : string) : list string := tokenize_from "" cmd.

(** The length of the tokens with one separator after each. *)
Definition tokens_length (tokens : list string) : nat :=
  foldr (λ t n, (String.length t + 1 + n)%nat) O tokens.

(** ** Leaf codecs of [int] and [std::string]

    [TypeTraits<int>] and [TypeTraits<std::string>] are the primary
    template: [fromString] is [boost::lexical_cast<T>(str)] and
    [toString] is [boost::lexical_cast<std::string>(val)]. *)

Definition INT_MAX : Z := 2147483647.
Definition UINT_MAX : Z := 4294967295.

Definition digit_value (c : ascii) : option Z :=
  let n := Z.of_nat (nat_of_ascii c) in
  if (48 <=? n) && (n <=? 57) then Some (n - 48) else None.

Fixpoint digits_value (acc : Z) (s : string) : option Z :=
  match s with
  | EmptyString => Some acc
  | String c s' =>
      match digit_value c with
      | Some d => digits_value (10 * acc + d) s'
      | None => None
      end
  end.

(** The unsigned conversion [boost::lexical_cast] performs on the
    characters after the sign: one or more decimal digits and nothing
    else, whose value fits the unsigned type. *)
Definition lcast_ret_unsigned (s : string) : option Z :=
  match s with
  | EmptyString => None
  | _ =>
      match digits_value 0 s with
      | Some v => if v <=? UINT_MAX then Some v else None
      | None => None
      end
  end.

(** [boost::lexical_cast<int>(str)] (classic locale): an optional ['-']
    or ['+'], then the digits; [bad_lexical_cast] when the text is not of
    that form or the value is not an [int]. *)
Definition lexical_cast_int (str : string) : result Z :=
  match str with
  | EmptyString => Throw bad_lexical_cast
  | String c rest =>
      let has_minus := Ascii.eqb c "-" in
      let digits := if has_minus || Ascii.eqb c "+" then rest else str in
      match lcast_ret_unsigned digits with
      | None => Throw bad_lexical_cast
      | Some out_tmp =>
          if has_minus then
            if out_tmp <=? INT_MAX + 1 then Ok (- out_tmp)
            else Throw bad_lexical_cast
          else
            if out_tmp <=? INT_MAX then Ok out_tmp
            else Throw bad_lexical_cast
      end
  end.

(** [boost::lexical_cast<std::string>(int)] and [std::to_string(int)]:
    the decimal digits, with a leading ['-'] for negative values. *)
Definition to_string_int (val : Z) : string :=
  NilZero.string_of_int (Z.to_int val).

(** [boost::lexical_cast<std::string>(const std::string&)] copies its
    argument, in both directions. *)
Definition lexical_cast_string (str : string) : result string := Ok str.

(** ** [ObjectRegistry<T>]

    [objects] is a [std::map<std::string, T*>]; one map per reflectable
    type [T].  The pointer type is the parameter [T] here. *)

Section ObjectRegistry.
Context {T : Type}.

Definition registerObject (id : string) (obj : T)
    (objects : gmap string T) : gmap string T :=
  <[id := obj]> objects.

Definition unregisterObject (id : string)
    (objects : gmap string T) : gmap string T :=
  delete id objects.

(** [None] is the [nullptr] the code returns for an absent key. *)
Definition getObject (id : string) (objects : gmap string T) : option T :=
  objects !! id.

(** ** [Reflectable<Derived>]: the member functions

    Each takes the [this] pointer and the registry of the derived type
    and returns the new [_object_id] (where it assigns it) and the new
    registry. *)

Definition _register_self (this : T) (id : string)
    (objects : gmap string T) : result (string * gmap string T) :=
  if decide (id = "") then Throw invalid_argument
  else Ok (id, registerObject id this objects).

Definition registerAs (this : T) (_object_id : string) (id : string)
    (objects : gmap string T) : result (string * gmap string T) :=
  if decide (id = "") then Throw invalid_argument
  else
    let objects :=
      if decide (_object_id = "") then objects
      else unregisterObject _object_id objects in
    _register_self this id objects.

(** [~Reflectable()]. *)
Definition Reflectable_dtor (_object_id : string)
    (objects : gmap string T) : gmap string T :=
  if decide (_object_id = "") then objects
  else unregisterObject _object_id objects.
End ObjectRegistry.

(** ** The life cycle of the instances of one reflectable type

    The state of one [Derived] type: the live instances (by address)
    with the [_object_id] each holds, and the registry of the type. *)

Section Lifecycle.
Context `{Countable T}.

Record Instances := mkInstances {
  object_ids : gmap T string;
  objects : gmap string T;
}.

Definition no_instances : Instances :=
  {| object_ids := ∅; objects := ∅ |}.

(** [Reflectable(std::string id)], run for a new object at [this].
    When [_register_self] throws, the object never comes to life. *)
Definition construct (this : T) (id : string) (s : Instances)
    : result unit * Instances :=
  match _register_self this id (objects s) with
  | Throw e => (Throw e, s)
  | Ok (oid, objs) =>
      (Ok tt, {| object_ids := <[this := oid]> (object_ids s);
                 objects := objs |})
  end.

(** [this->registerAs(id)] on a live instance. *)
Definition rename (this : T) (id : string) (s : Instances)
    : result unit * Instances :=
  match object_ids s !! this with
  | None => (Throw invalid_pointer, s)
  | Some _object_id =>
      match registerAs this _object_id id (objects s) with
      | Throw e => (Throw e, s)
      | Ok (oid, objs) =>
          (Ok tt, {| object_ids := <[this := oid]> (object_ids s);
                     objects := objs |})
      end
  end.

(** [this->~Reflectable()] on a live instance. *)
Definition destroy (this : T) (s : Instances) : result unit * Instances :=
  match object_ids s !! this with
  | None => (Throw invalid_pointer, s)
  | Some _object_id =>
      (Ok tt, {| object_ids := delete this (object_ids s);
                 objects := Reflectable_dtor _object_id (objects s) |})
  end.

Inductive lifecycle_op :=
  | Construct (this : T) (id : string)
  | Rename (this : T) (id : string)
  | Destroy (this : T).

Definition apply_op (op : lifecycle_op) (s : Instances)
    : result unit * Instances :=
  match op with
  | Construct this id => construct this id s
  | Rename this id => rename this id s
  | Destroy this => destroy this s
  end.

(** A caller runs the operations one after the other; one that throws
    leaves the state as [apply_op] returns it and the next one runs. *)
Fixpoint run (ops : list lifecycle_op) (s : Instances) : Instances :=
  match ops with
  | [] => s
  | op :: ops' => run ops' (apply_op op s).2
  end.



(** Every entry of the registry points to a live instance that holds
    the key as its identifier. *)
Definition registry_sound (s : Instances) : Prop :=
  ∀ id this, objects s !! id = Some this → object_ids s !! this = Some id.

(** [id] is not the identifier of a live instance other than [this]. *)
Definition unclaimed (this : T) (id : string) (s : Instances) : Prop :=
  map_Forall (λ other oid, other = this ∨ oid ≠ id) (object_ids s).

(** An operation is orderly when it constructs at an address where no
    instance lives, renames or destroys a live instance, and registers
    no identifier that another live instance holds. *)
Definition orderly_op (op : lifecycle_op) (s : Instances) : Prop :=
  match op with
  | Construct this id => object_ids s !! this = None ∧ unclaimed this id s
  | Rename this id => is_Some (object_ids s !! this) ∧ unclaimed this id s
  | Destroy this => is_Some (object_ids s !! this)
  end.

Fixpoint orderly (ops : list lifecycle_op) (s : Instances) : Prop :=
  match ops with
  | [] => True
  | op :: ops' => orderly_op op s ∧ orderly ops' (apply_op op s).2
  end.


Global Instance unclaimed_dec this id s : Decision (unclaimed this id s).
Proof. unfold unclaimed. apply _. Defined.

Global Instance orderly_op_dec op s : Decision (orderly_op op s).
Proof. destruct op; simpl; apply _. Defined.

Global Instance orderly_dec ops s : Decision (orderly ops s).
Proof. revert s. induction ops as [|op ops IH]; simpl; intros s; apply _. Defined.
End Lifecycle.
Arguments Instances T {_ _}.
Arguments lifecycle_op T : clear implicits.

(** ** The example classes [Record] and [A]

    [struct Record] declares the members [int a] and [std::string b]
    with [REFLECT_MEMBER]; [class A] declares [int a] and [Record d]
    with it, and the plain member [nonreflectable].  Both carry the
    [_object_id] of their [Reflectable] base. *)

Record Record_ := mkRecord {
  Record_object_id : string;
  Record_a : Z;
  Record_b : string;
}.

Record A := mkA {
  A_object_id : string;
  A_a : Z;
  A_d : Record_;
  A_nonreflectable : string;
}.

(** Addresses.  An [A] lives at an [addr]; a [Record] is either the
    member [d] of the [A] at [obj] or the local variable [r] of
    [TypeTraits<Record>::fromString]. *)
Definition addr := nat.

Inductive RecordPtr :=
  | Ptr_A_d (obj : addr)
  | Ptr_local.

Inductive IntPtr :=
  | Ptr_A_a (obj : addr)
  | Ptr_Record_a (r : RecordPtr).

Inductive StringPtr :=
  | Ptr_Record_b (r : RecordPtr).

Global Instance RecordPtr_eq_dec : EqDecision RecordPtr.
Proof. solve_decision. Defined.

Global Instance RecordPtr_countable : Countable RecordPtr.
Proof.
  refine (inj_countable'
    (λ r, match r with Ptr_A_d obj => Some obj | Ptr_local => None end)
    (λ o, match o with Some obj => Ptr_A_d obj | None => Ptr_local end) _).
  by intros [].
Defined.

(** The state of the process: the live [A] objects and the two
    registries, [ObjectRegistry<A>::objects] and
    [ObjectRegistry<Record>::objects]. *)
Record World := mkWorld {
  heap : gmap addr A;
  objects_A : gmap string addr;
  objects_Record : gmap string RecordPtr;
}.

Definition empty_world : World :=
  {| heap := ∅; objects_A := ∅; objects_Record := ∅ |}.

Definition set_heap (h : gmap addr A) (w : World) : World :=
  {| heap := h; objects_A := objects_A w; objects_Record := objects_Record w |}.

Definition set_objects_Record (objs : gmap string RecordPtr) (w : World) : World :=
  {| heap := heap w; objects_A := objects_A w; objects_Record := objs |}.

(** Reads and writes through the pointers; [None] when the pointer does
    not point into a live object. *)
Definition load_Record (r : RecordPtr) (w : World) : option Record_ :=
  match r with
  | Ptr_A_d obj => A_d <$> heap w !! obj
  | Ptr_local => None
  end.

Definition store_Record (r : RecordPtr) (v : Record_) (w : World) : option World :=
  match r with
  | Ptr_A_d obj =>
      o ← heap w !! obj;
      Some (set_heap (<[obj := mkA (A_object_id o) (A_a o) v (A_nonreflectable o)]>
                        (heap w)) w)
  | Ptr_local => None
  end.

Definition load_int (p : IntPtr) (w : World) : option Z :=
  match p with
  | Ptr_A_a obj => A_a <$> heap w !! obj
  | Ptr_Record_a r => Record_a <$> load_Record r w
  end.

Definition store_int (p : IntPtr) (v : Z) (w : World) : option World :=
  match p with
  | Ptr_A_a obj =>
      o ← heap w !! obj;
      Some (set_heap (<[obj := mkA (A_object_id o) v (A_d o) (A_nonreflectable o)]>
                        (heap w)) w)
  | Ptr_Record_a r =>
      o ← load_Record r w;
      store_Record r (mkRecord (Record_object_id o) v (Record_b o)) w
  end.

Definition load_string (p : StringPtr) (w : World) : option string :=
  match p with
  | Ptr_Record_b r => Record_b <$> load_Record r w
  end.

Definition store_string (p : StringPtr) (v : string) (w : World) : option World :=
  match p with
  | Ptr_Record_b r =>
      o ← load_Record r w;
      store_Record r (mkRecord (Record_object_id o) (Record_a o) v) w
  end.

(** ** [TypeTraits<Record>] *)

Definition result_bind {X Y} (e : result X) (k : X → result Y) : result Y :=
  match e with
  | Ok x => k x
  | Throw err => Throw err
  end.

(** The statements of [fromString] that follow the declaration of [r]. *)
Definition TypeTraits_Record_fromString_body (r : Record_) (str : string)
    : result Record_ :=
  match find "," str with
  | Some pos =>
      result_bind (substr str 0 (Some pos)) (λ s1,
      result_bind (lexical_cast_int s1) (λ a,
      result_bind (substr str (pos + 1) None) (λ b,
      Ok (mkRecord (Record_object_id r) a b))))
  | None => Ok r
  end.

(** [TypeTraits<Record>::fromString(str)].  [Record r("default")]
    registers the local under ["default"]; when the body throws, the
    unwinding destroys [r], which unregisters ["default"]; when it
    returns, the returned object still holds the identifier ["default"]
    and unregisters it when the caller destroys it (the caller sees the
    same registry whether or not the return value is constructed in
    place). *)
Definition TypeTraits_Record_fromString (str : string)
    (objects : gmap string RecordPtr)
    : result Record_ * gmap string RecordPtr :=
  match _register_self Ptr_local "default" objects with
  | Throw e => (Throw e, objects)
  | Ok (oid, objects) =>
      match TypeTraits_Record_fromString_body (mkRecord oid 0 "") str with
      | Throw e => (Throw e, Reflectable_dtor oid objects)
      | Ok r => (Ok r, objects)
      end
  end.

Definition TypeTraits_Record_toString (val : Record_) : string :=
  to_string_int (Record_a val) +:+ "," +:+ Record_b val.

(** ** [MemberInfo<T>]: the accessors

    One constructor per instantiation of [MemberInfo<T>] the program
    has; [member] is the [T*] the accessor is bound to. *)
Inductive MemberInfo :=
  | MemberInfo_int (member : IntPtr)
  | MemberInfo_string (member : StringPtr)
  | MemberInfo_Record (member : RecordPtr).

Definition getValue (mi : MemberInfo) (w : World) : result string :=
  match mi with
  | MemberInfo_int member =>
      match load_int member w with
      | Some v => Ok (to_string_int v)
      | None => Throw invalid_pointer
      end
  | MemberInfo_string member =>
      match load_string member w with
      | Some v => Ok v
      | None => Throw invalid_pointer
      end
  | MemberInfo_Record member =>
      match load_Record member w with
      | Some v => Ok (TypeTraits_Record_toString v)
      | None => Throw invalid_pointer
      end
  end.

(** [setValue]: [try { *member = fromString(value); return true; }
    catch (...) { return false; }].  For a [Record] the assignment is
    the implicit copy assignment, which copies [_object_id] with the
    other members, and the temporary is destroyed after it. *)
Definition setValue (mi : MemberInfo) (value : string) (w : World)
    : result bool * World :=
  match mi with
  | MemberInfo_int member =>
      match lexical_cast_int value with
      | Throw _ => (Ok false, w)
      | Ok v =>
          match store_int member v w with
          | Some w' => (Ok true, w')
          | None => (Throw invalid_pointer, w)
          end
      end
  | MemberInfo_string member =>
      match lexical_cast_string value with
      | Throw _ => (Ok false, w)
      | Ok v =>
          match store_string member v w with
          | Some w' => (Ok true, w')
          | None => (Throw invalid_pointer, w)
          end
      end
  | MemberInfo_Record member =>
      match TypeTraits_Record_fromString value (objects_Record w) with
      | (Throw _, objs) => (Ok false, set_objects_Record objs w)
      | (Ok tmp, objs) =>
          let objs := Reflectable_dtor (Record_object_id tmp) objs in
          match store_Record member tmp w with
          | Some w' => (Ok true, set_objects_Record objs w')
          | None => (Throw invalid_pointer, set_objects_Record objs w)
          end
      end
  end.

(** ** Construction and destruction of an [A]

    [A(std::string id)]: the base [Reflectable<A>(id)] registers the
    object, then its member [d("record_1")] registers itself in the
    registry of [Record], then the body sets [d.a = 2] and
    [d.b = "hello"].  When the base constructor throws, nothing else
    runs. *)
Definition A_ctor (this : addr) (id : string) (w : World) : result unit * World :=
  match _register_self this id (objects_A w) with
  | Throw e => (Throw e, w)
  | Ok (oid, objsA) =>
      match _register_self (Ptr_A_d this) "record_1" (objects_Record w) with
      | Throw e =>
          (Throw e, {| heap := heap w;
                       objects_A := Reflectable_dtor oid objsA;
                       objects_Record := objects_Record w |})
      | Ok (rid, objsR) =>
          (Ok tt, {| heap := <[this := mkA oid 1 (mkRecord rid 2 "hello")
                                           "nonreflectable"]> (heap w);
                     objects_A := objsA;
                     objects_Record := objsR |})
      end
  end.

(** [~A()]: the member [d] is destroyed, then the base. *)
Definition A_dtor (this : addr) (w : World) : result unit * World :=
  match heap w !! this with
  | None => (Throw invalid_pointer, w)
  | Some o =>
      (Ok tt, {| heap := delete this (heap w);
                 objects_A := Reflectable_dtor (A_object_id o) (objects_A w);
                 objects_Record :=
                   Reflectable_dtor (Record_object_id (A_d o)) (objects_Record w) |})
  end.

(** ** [Reflector<T>] and [ReflectionParser] *)

(** The [member_info_] structs [REFLECT_MEMBER] declares in each class. *)
Inductive A_member_info := A_member_info_a | A_member_info_d.
Inductive Record_member_info := Record_member_info_a | Record_member_info_b.

Global Instance A_member_info_eq_dec : EqDecision A_member_info.
Proof. solve_decision. Defined.

Definition A_member_name (m : A_member_info) : string :=
  match m with
  | A_member_info_a => "a"
  | A_member_info_d => "d"
  end.

Definition Record_member_name (m : Record_member_info) : string :=
  match m with
  | Record_member_info_a => "a"
  | Record_member_info_b => "b"
  end.

(** [Reflector<T>::MemberMap]. *)
Abbreviation MemberMap := (gmap string MemberInfo).

(** [add_to_map<MemberInfoT>(members, obj)]: the accessor of the member
    is bound to [&(obj.*pointer)] and stored under the member's name. *)
Definition A_member_accessor (m : A_member_info) (obj : addr) : MemberInfo :=
  match m with
  | A_member_info_a => MemberInfo_int (Ptr_A_a obj)
  | A_member_info_d => MemberInfo_Record (Ptr_A_d obj)
  end.

Definition A_add_to_map (m : A_member_info) (members : MemberMap) (obj : addr)
    : MemberMap :=
  <[A_member_name m := A_member_accessor m obj]> members.

Definition Record_member_accessor (m : Record_member_info) (obj : RecordPtr)
    : MemberInfo :=
  match m with
  | Record_member_info_a => MemberInfo_int (Ptr_Record_a obj)
  | Record_member_info_b => MemberInfo_string (Ptr_Record_b obj)
  end.

Definition Record_add_to_map (m : Record_member_info) (members : MemberMap)
    (obj : RecordPtr) : MemberMap :=
  <[Record_member_name m := Record_member_accessor m obj]> members.

(** The outcome of one call of [parseAndExecute]: what it returns (or
    the exception that leaves it), the lines written to [std::cerr] and
    the state it leaves. *)
Record Outcome := mkOutcome {
  returned : result string;
  cerr : list string;
  world : World;
}.

(** One activation of [parseAndExecute] either returns or ends in the
    call of itself on a rewritten command (line 337), whose result it
    returns as it is. *)
Inductive Activation :=
  | Return (o : Outcome)
  | Recurse (cmd : string).

Definition try_ {X} (e : result X) (w : World) (k : X → Activation) : Activation :=
  match e with
  | Ok x => k x
  | Throw err => Return (mkOutcome (Throw err) [] w)
  end.

(** The argument of the nested call of [parseAndExecute] on line 337:
    [operation + " " + objectId + "." + subPath +
     (operation == "set" ? "=" + value : "")]. *)
Definition nested_command (operation objectId subPath value : string) : string :=
  operation +:+ " " +:+ objectId +:+ "." +:+ subPath
  +:+ (if decide (operation = "set") then "=" +:+ value else "").

Section Dispatcher.
(** [Reflector<T>::reflect(obj)] starts with [constexpr auto members =
    T::_reflect_members();] (line 275) and hands [members] to
    [reflect_impl].  In this section [members] is a variable, for [A]
    and for [Record]: the dispatcher is defined and its general
    properties are proved for every value of it.  The value the code
    computes is [A__reflect_members] below, the empty tuple, and the
    program is the instance of the section at that value: the
    properties that depend on the tuple are stated there. *)
Variable A_reflect_members : list A_member_info.
Variable Record_reflect_members : list Record_member_info.

(** [Reflector<T>::reflect(obj)]: [reflect_impl] runs [add_to_map] for
    the elements of the tuple, from the first to the last, on an empty
    map. *)
Definition Reflector_A_reflect (obj : addr) : MemberMap :=
  fold_left (λ members m, A_add_to_map m members obj) A_reflect_members ∅.

Definition Reflector_Record_reflect (obj : RecordPtr) : MemberMap :=
  fold_left (λ members m, Record_add_to_map m members obj)
    Record_reflect_members ∅.

(** Lines 344 to 357 of [parseAndExecute]: the member a path without
    ['.'] names, on the object found. *)
Definition parseAndExecute_member (operation memberPath value : string)
    (obj : addr) (w : World) : Activation :=
  let members := Reflector_A_reflect obj in
  match members !! memberPath with
  | None =>
      Return (mkOutcome (Ok "") ["Member not found: " +:+ memberPath] w)
  | Some it =>
      if decide (operation = "set") then
        match setValue it value w with
        | (Ok true, w') => Return (mkOutcome (Ok value) [] w')
        | (Ok false, w') => Return (mkOutcome (Ok "") [] w')
        | (Throw e, w') => Return (mkOutcome (Throw e) [] w')
        end
      else if decide (operation = "get") then
        Return (mkOutcome (getValue it w) [] w)
      else Return (mkOutcome (Ok "") [] w)
  end.

(** Lines 330 to 341: a member path with a ['.'] at [pos]. *)
Definition parseAndExecute_nested (operation objectId memberPath value : string)
    (pos : nat) (obj : addr) (w : World) : Activation :=
  try_ (substr memberPath 0 (Some pos)) w (λ baseMember,
  try_ (substr memberPath (pos + 1) None) w (λ subPath,
  let members := Reflector_A_reflect obj in
  match members !! baseMember with
  | Some _ =>
      if decide (baseMember = "d") then
        Recurse (nested_command operation objectId subPath value)
      else Return (mkOutcome (Ok "") [] w)
  | None => Return (mkOutcome (Ok "") [] w)
  end)).

(** Lines 315 to 342, with [pathSpec] and [value] as lines 308 to 313
    leave them, then lines 344 to 357. *)
Definition parseAndExecute_resolve (operation pathSpec value : string)
    (w : World) : Activation :=
  match find "." pathSpec with
  | None => Return (mkOutcome (Ok "") [] w)
  | Some firstDot =>
      try_ (substr pathSpec 0 (Some firstDot)) w (λ objectId,
      try_ (substr pathSpec (firstDot + 1) None) w (λ memberPath,
      match getObject objectId (objects_A w) with
      | None =>
          Return (mkOutcome (Ok "") ["Object not found: " +:+ objectId] w)
      | Some obj =>
          match find "." memberPath with
          | Some pos =>
              parseAndExecute_nested operation objectId memberPath value pos obj w
          | None => parseAndExecute_member operation memberPath value obj w
          end
      end))
  end.

(** Lines 299 to 313, then the rest. *)
Definition parseAndExecute_body (cmd : string) (w : World) : Activation :=
  match tokenize cmd with
  | [] => Return (mkOutcome (Ok "") [] w)
  | [operation] => Return (mkOutcome (Ok "") [] w)
  | operation :: pathSpec :: _ =>
      if decide (operation = "set") then
        match find "=" pathSpec with
        | None => Return (mkOutcome (Ok "") [] w)
        | Some eqPos =>
            try_ (substr pathSpec (eqPos + 1) None) w (λ value,
            try_ (substr pathSpec 0 (Some eqPos)) w (λ pathSpec,
            parseAndExecute_resolve operation pathSpec value w))
        end
      else parseAndExecute_resolve operation pathSpec "" w
  end.

(** The recursion of [parseAndExecute], with [fuel] bounding the depth
    of the calls; [None] when the bound is reached. *)
Fixpoint parseAndExecute_fuel (fuel : nat) (cmd : string) (w : World)
    : option Outcome :=
  match fuel with
  | O => None
  | S fuel' =>
      match parseAndExecute_body cmd w with
      | Return o => Some o
      | Recurse cmd' => parseAndExecute_fuel fuel' cmd' w
      end
  end.

(** [ReflectionParser::parseAndExecute(cmd)]: every nested call is on
    a shorter command (lemma [parseAndExecute_total] below), so a
    depth of one more than the length of [cmd] is never reached. *)
Definition parseAndExecute (cmd : string) (w : World) : option Outcome :=
  parseAndExecute_fuel (S (String.length cmd)) cmd w.
End Dispatcher.

(** The state after [A a("test_object")] in [main], with the object at
    address [0]. *)
Definition main_world : World := (A_ctor 0%nat "test_object" empty_world).2.

(** ** [Reflectable<Derived>::_reflect_members()]

    [constexpr size_t count = REFLECT_COUNTER;] (line 178):
    [REFLECT_COUNTER] is [__COUNTER__], which the preprocessor expands
    where the function is written, ahead of the four [REFLECT_MEMBER]
    of [Record] and [A]: [count] is 0 when no header has expanded
    [__COUNTER__] before, and with a positive [count] the program does
    not compile (see [_get_reflection_data]). *)
Definition _reflect_members_count : nat := 0.

(** [_get_reflection_data(std::integral_constant<size_t, N>)]: the
    empty tuple for [N = 0].  For a positive [N] the element type is
    [decltype(Derived::_reflect_member_N - 1)] (the macro pastes the
    name [N] of the parameter, not its value), and no class declares a
    member [_reflect_member_N]: that instantiation is ill-formed,
    [None] here. *)
Definition _get_reflection_data {M : Type} (N : nat) : option (list M) :=
  match N with
  | O => Some []
  | S _ => None
  end.

(** [Derived::_reflect_members()]: the tuple [Reflector<Derived>::reflect]
    walks. *)
Definition _reflect_members {M : Type} : list M :=
  default [] (_get_reflection_data _reflect_members_count).

(** [A::_reflect_members()], the tuple of the program. *)
Definition A__reflect_members : list A_member_info := _reflect_members.

(** The members [Record] declares with [REFLECT_MEMBER], in their
    order: what a member map of [d] of its own would be built from. *)
Definition Record_declared_members : list Record_member_info :=
  [Record_member_info_a; Record_member_info_b].

(** ** Notions the properties are stated with *)

(** Every entry of [ObjectRegistry<A>::objects] has a non-empty key and
    points to a live [A] that holds the key as its [_object_id]: the
    registry has no dangling pointer, and the destructor of an object
    removes every entry that points to it. *)
Definition wf_world (w : World) : Prop :=
  ∀ id obj, objects_A w !! id = Some obj →
    id ≠ "" ∧ ∃ o, heap w !! obj = Some o ∧ A_object_id o = id.

(** [w'] has the registry of [A] of [w] and the same live objects, each
    with the identifier it has in [w]. *)
Definition same_objects (w w' : World) : Prop :=
  objects_A w' = objects_A w ∧
  ∀ obj, A_object_id <$> heap w' !! obj = A_object_id <$> heap w !! obj.

(** [toString(fromString(value))] for the type of the accessor: the
    text the member reads back as once [value] is stored, or the
    exception [fromString] throws. *)
Definition reencode (mi : MemberInfo) (value : string) : result string :=
  match mi with
  | MemberInfo_int _ =>
      result_bind (lexical_cast_int value) (λ v, Ok (to_string_int v))
  | MemberInfo_string _ => lexical_cast_string value
  | MemberInfo_Record _ =>
      result_bind (TypeTraits_Record_fromString_body (mkRecord "default" 0 "") value)
        (λ r, Ok (TypeTraits_Record_toString r))
  end.

(** The result of [set] from what [setValue] returns (line 352). *)
Definition set_result (value : string) (r : result bool) : result string :=
  match r with
  | Ok true => Ok value
  | Ok false => Ok ""
  | Throw e => Throw e
  end.

(** [accessed ms operation w o]: a call with the operation [operation]
    in the state [w] has reached the accessor of a reflected member of a
    registered object, with [set] or with [get], and [o] is what the
    accessor made of it. *)
Definition accessed (A_reflect_members : list A_member_info) (operation : string)
    (w : World) (o : Outcome) : Prop :=
  ∃ id obj m value,
    objects_A w !! id = Some obj ∧ m ∈ A_reflect_members ∧
    let it := A_member_accessor m obj in
    (operation = "set" ∧
     o = mkOutcome (set_result value (setValue it value w).1) []
           (setValue it value w).2)
    ∨ (operation = "get" ∧ o = mkOutcome (getValue it w) [] w).

(** The text the member [m] of the object [o] reads as: [toString] of
    the value it holds. *)
Definition A_member_text (m : A_member_info) (o : A) : string :=
  match m with
  | A_member_info_a => to_string_int (A_a o)
  | A_member_info_d => TypeTraits_Record_toString (A_d o)
  end.

(** The path of a command: its second token, up to the first ['='] when
    the operation is [set]. *)
Definition command_path (operation pathSpec : string) : string :=
  if decide (operation = "set") then
    match find "=" pathSpec with
    | Some eqPos => take_chars eqPos pathSpec
    | None => pathSpec
    end
  else pathSpec.

(** The malformed commands: fewer than two tokens, a path without
    ['.'], a [set] whose second token has no ['='], an operation that is
    neither [get] nor [set]. *)
Definition malformed (cmd : string) : Prop :=
  match tokenize cmd with
  | operation :: pathSpec :: _ =>
      lacks "." (command_path operation pathSpec) ∨
      (operation = "set" ∧ lacks "=" pathSpec) ∨
      (operation ≠ "get" ∧ operation ≠ "set")
  | _ => True
  end.

(** An identifier that can stand in a command: it contains none of the
    characters the dispatcher splits at. *)
Definition path_segment (id : string) : Prop :=
  lacks " " id ∧ lacks "." id ∧ lacks "=" id.

(** The commands [get id.name] and [set id.name=value]. *)
Definition get_command (id name : string) : string :=
  "get" +:+ " " +:+ id +:+ "." +:+ name.

Definition set_command (id name value : string) : string :=
  "set" +:+ " " +:+ id +:+ "." +:+ name +:+ "=" +:+ value.

(** A sequence of calls of [parseAndExecute], as in [main]: what each
    call returns, with the state threaded from one call to the next. *)
Fixpoint session (A_reflect_members : list A_member_info) (cmds : list string)
    (w : World) : list (option (result string)) :=
  match cmds with
  | [] => []
  | cmd :: cmds' =>
      match parseAndExecute A_reflect_members cmd w with
      | Some o => Some (returned o) :: session A_reflect_members cmds' (world o)
      | None => [None]
      end
  end.

(** The commands [main] calls [parseAndExecute] with, in order. *)
Definition main_commands : list string :=
  ["set test_object.a=42"; "get test_object.a";
   "set test_object.d.a=666"; "get test_object.d.a";
   "set test_object.d.b=hello_world"; "get test_object.d.b";
   "set invalid_object.a=42"; "set test_object.invalid=42";
   "set test_object.a"; "invalid test_object.a";
   "set test_object.nonreflectable=42"].

(** ** [TypeTraits<A>] and the notions the further properties use *)

Definition INT_MIN : Z := -2147483648.

(** The values of the C++ type [int]. *)
Definition is_int (z : Z) : Prop := INT_MIN ≤ z ≤ INT_MAX.

(** Every [int] member of every live object holds a value of [int]. *)
Definition ints_in_range (w : World) : Prop :=
  ∀ obj o, heap w !! obj = Some o →
    is_int (A_a o) ∧ is_int (Record_a (A_d o)).

(** [TypeTraits<A>::toString(val)]. *)
Definition TypeTraits_A_toString (val : A) : string :=
  to_string_int (A_a val) +:+ "|" +:+ TypeTraits_Record_toString (A_d val).

(** The statements of [TypeTraits<A>::fromString] that follow the
    declaration of [a], on the value of [a] and the registry of
    [Record]: the conversion of the part after ['|'] constructs and
    destroys the local of [TypeTraits<Record>::fromString], and the
    assignment to [a.d] copies its [_object_id] with its members. *)
Definition TypeTraits_A_fromString_body (a : A) (str : string)
    (objects : gmap string RecordPtr) : result A * gmap string RecordPtr :=
  match find "|" str with
  | Some pos =>
      match result_bind (substr str 0 (Some pos)) lexical_cast_int with
      | Throw e => (Throw e, objects)
      | Ok v =>
          match substr str (pos + 1) None with
          | Throw e => (Throw e, objects)
          | Ok rest =>
              match TypeTraits_Record_fromString rest objects with
              | (Throw e, objs) => (Throw e, objs)
              | (Ok tmp, objs) =>
                  (Ok (mkA (A_object_id a) v tmp (A_nonreflectable a)),
                   Reflectable_dtor (Record_object_id tmp) objs)
              end
          end
      end
  | None => (Ok a, objects)
  end.

(** Sequences of life-cycle operations that construct where no
    instance lives and rename or destroy live instances; identifiers
    may collide. *)
Section LifecycleAddresses.
Context `{Countable T}.

Definition well_addressed_op (op : lifecycle_op T) (s : Instances T) : Prop :=
  match op with
  | Construct this _ => object_ids s !! this = None
  | Rename this _ => is_Some (object_ids s !! this)
  | Destroy this => is_Some (object_ids s !! this)
  end.

Fixpoint well_addressed (ops : list (lifecycle_op T)) (s : Instances T) : Prop :=
  match ops with
  | [] => True
  | op :: ops' => well_addressed_op op s ∧ well_addressed ops' (apply_op op s).2
  end.

Global Instance well_addressed_op_dec op s : Decision (well_addressed_op op s).
Proof. destruct op; simpl; apply _. Defined.

Global Instance well_addressed_dec ops s : Decision (well_addressed ops s).
Proof. revert s. induction ops as [|op ops IH]; simpl; intros s; apply _. Defined.
End LifecycleAddresses.

(** ** Copies of a reflectable instance

    [Reflectable] declares no copy constructor and no copy assignment:
    both are the implicit ones, which copy [_object_id] and call nothing
    of the registry.  The program copies instances where a [fromString]
    returns its local and where [setValue] and
    [TypeTraits<A>::fromString] assign a [Record] (lines 78, 215,
    245). *)
Section LifecycleCopies.
Context `{Countable T}.




End LifecycleCopies.

(** The object an accessor points into. *)
Definition RecordPtr_owner (r : RecordPtr) : option addr :=
  match r with
  | Ptr_A_d obj => Some obj
  | Ptr_local => None
  end.

Definition MemberInfo_owner (mi : MemberInfo) : option addr :=
  match mi with
  | MemberInfo_int (Ptr_A_a obj) => Some obj
  | MemberInfo_int (Ptr_Record_a r) => RecordPtr_owner r
  | MemberInfo_string (Ptr_Record_b r) => RecordPtr_owner r
  | MemberInfo_Record r => RecordPtr_owner r
  end.

(** * Properties *)

(** ** Evaluation of the codecs and of the tokenizer *)

Example tokenize_ex1 :
  tokenize "set  test_object.a=42 " = ["set"; "test_object.a=42"].
Proof. reflexivity. Qed.

Example lexical_cast_int_ex :
  lexical_cast_int "42" = Ok 42 /\ lexical_cast_int "+42" = Ok 42 /\
  lexical_cast_int "-007" = Ok (-7) /\
  lexical_cast_int "2147483648" = Throw bad_lexical_cast /\
  lexical_cast_int "-2147483648" = Ok (-2147483648) /\
  lexical_cast_int "4 2" = Throw bad_lexical_cast /\
  lexical_cast_int "" = Throw bad_lexical_cast /\
  lexical_cast_int "-" = Throw bad_lexical_cast /\
  to_string_int 42 = "42" /\ to_string_int (-7) = "-7" /\
  to_string_int 0 = "0".
Proof. repeat split; reflexivity. Qed.

(** ** Facts about the string operations *)

Lemma app_nil_l (s : string) : "" +:+ s = s.
Proof. reflexivity. Qed.

Lemma app_cons c (s1 s2 : string) : String c s1 +:+ s2 = String c (s1 +:+ s2).
Proof. reflexivity. Qed.

Lemma app_nil_r (s : string) : s +:+ "" = s.
Proof. induction s as [|c s IH]; [done|]. by rewrite app_cons, IH. Qed.

Lemma app_assoc (s1 s2 s3 : string) : (s1 +:+ s2) +:+ s3 = s1 +:+ s2 +:+ s3.
Proof. induction s1 as [|c s1 IH]; [done|]. by rewrite !app_cons, IH. Qed.

Lemma length_app (s1 s2 : string) :
  String.length (s1 +:+ s2) = (String.length s1 + String.length s2)%nat.
Proof. induction s1 as [|c s1 IH]; [done|]. rewrite app_cons. simpl. by rewrite IH. Qed.

Lemma app_eq_nil (s1 s2 : string) : s1 +:+ s2 = "" → s1 = "" ∧ s2 = "".
Proof. destruct s1; [done|]. rewrite app_cons. discriminate. Qed.

Lemma lacks_nil ch : lacks ch "".
Proof. done. Qed.

Lemma lacks_cons ch c s :
  lacks ch (String c s) ↔ c ≠ ch ∧ lacks ch s.
Proof.
  unfold lacks. simpl. destruct (Ascii.eqb_spec c ch) as [->|Hne].
  - split; [discriminate|]. by intros [? _].
  - destruct (find ch s); simpl; split; try done; try by intros [_ ?].
Qed.

Lemma lacks_app ch s1 s2 :
  lacks ch (s1 +:+ s2) ↔ lacks ch s1 ∧ lacks ch s2.
Proof.
  induction s1 as [|c s1 IH].
  - rewrite app_nil_l. split; [done|]. by intros [_ ?].
  - rewrite app_cons, !lacks_cons, IH. tauto.
Qed.

Lemma find_app ch s1 s2 :
  lacks ch s1 → find ch (s1 +:+ String ch s2) = Some (String.length s1).
Proof.
  induction s1 as [|c s1 IH].
  - intros _. rewrite app_nil_l. simpl. by rewrite Ascii.eqb_refl.
  - rewrite lacks_cons, app_cons. intros [Hne Hl]. simpl.
    destruct (Ascii.eqb_spec c ch); [done|]. by rewrite IH.
Qed.

Lemma take_chars_app s1 s2 : take_chars (String.length s1) (s1 +:+ s2) = s1.
Proof.
  induction s1 as [|c s1 IH]; [by destruct s2|].
  rewrite app_cons. simpl. by rewrite IH.
Qed.

Lemma drop_chars_app s1 s2 : drop_chars (String.length s1) (s1 +:+ s2) = s2.
Proof. induction s1 as [|c s1 IH]; [done|]. by rewrite app_cons. Qed.

Lemma substr_prefix s1 s2 :
  substr (s1 +:+ s2) 0 (Some (String.length s1)) = Ok s1.
Proof. unfold substr. simpl. by rewrite take_chars_app. Qed.

Lemma substr_suffix s1 c s2 :
  substr (s1 +:+ String c s2) (String.length s1 + 1) None = Ok s2.
Proof.
  unfold substr. rewrite length_app. simpl.
  destruct (Nat.leb_spec (String.length s1 + 1)
              (String.length s1 + S (String.length s2))); [|lia].
  replace (String.length s1 + 1)%nat with (String.length (s1 +:+ String c "")).
  - replace (s1 +:+ String c s2) with ((s1 +:+ String c "") +:+ s2)
      by (by rewrite app_assoc).
    by rewrite drop_chars_app.
  - rewrite length_app. simpl. lia.
Qed.

(** What [find] returns splits the string around the character found. *)
Lemma find_Some ch s i :
  find ch s = Some i →
  ∃ s1 s2, s = s1 +:+ String ch s2 ∧ String.length s1 = i ∧ lacks ch s1.
Proof.
  revert i. induction s as [|c s IH]; simpl; intros i; [done|].
  destruct (Ascii.eqb_spec c ch) as [->|Hne].
  - intros [= <-]. by exists "", s.
  - destruct (find ch s) as [j|] eqn:Hj; simpl; [|done]. intros [= <-].
    destruct (IH j eq_refl) as (s1 & s2 & -> & <- & Hl).
    exists (String c s1), s2. split_and!; [done..|]. by apply lacks_cons.
Qed.

(** ** Facts about [tokenize] *)

Lemma tokenize_from_lacks token s :
  lacks " " s →
  tokenize_from token s = if decide (token +:+ s = "") then [] else [token +:+ s].
Proof.
  revert token. induction s as [|c s IH]; intros token; simpl.
  - intros _. by rewrite app_nil_r.
  - rewrite lacks_cons. intros [Hne Hl].
    destruct (Ascii.eqb_spec c " "); [done|].
    by rewrite IH, app_assoc.
Qed.

Lemma tokenize_from_app token s1 s2 :
  lacks " " s1 →
  tokenize_from token (s1 +:+ s2) = tokenize_from (token +:+ s1) s2.
Proof.
  revert token. induction s1 as [|c s1 IH]; intros token.
  - by rewrite app_nil_l, app_nil_r.
  - rewrite lacks_cons, app_cons. intros [Hne Hl]. simpl.
    destruct (Ascii.eqb_spec c " "); [done|].
    by rewrite IH, app_assoc.
Qed.

(** A command made of two tokens separated by one space. *)
Lemma tokenize_two t1 t2 :
  lacks " " t1 → lacks " " t2 → t1 ≠ "" → t2 ≠ "" →
  tokenize (t1 +:+ " " +:+ t2) = [t1; t2].
Proof.
  intros H1 H2 Hn1 Hn2. unfold tokenize.
  rewrite tokenize_from_app, app_nil_l, app_cons, app_nil_l by done. simpl.
  rewrite tokenize_from_lacks, app_nil_l by done.
  by rewrite !decide_False.
Qed.

(** The tokens are not empty and contain no space. *)
Lemma tokenize_from_token token s t :
  lacks " " token → t ∈ tokenize_from token s → lacks " " t ∧ t ≠ "".
Proof.
  revert token. induction s as [|c s IH]; intros token Htok; simpl.
  - case_decide; [by intros ?%elem_of_nil|].
    by intros ->%list_elem_of_singleton.
  - destruct (Ascii.eqb_spec c " ") as [->|Hne].
    + case_decide.
      * by apply IH.
      * intros [->|Ht]%elem_of_cons; [done|]. by apply (IH "").
    + apply IH. apply lacks_app. split; [done|].
      apply lacks_cons. split; [done|]. apply lacks_nil.
Qed.

Lemma tokenize_token cmd t : t ∈ tokenize cmd → lacks " " t ∧ t ≠ "".
Proof. by apply tokenize_from_token. Qed.

(** The tokens and the spaces between them fit in the command. *)
Lemma tokenize_from_length token s :
  (tokens_length (tokenize_from token s)
   ≤ String.length token + String.length s + 1)%nat.
Proof.
  revert token. induction s as [|c s IH]; intros token; simpl.
  - case_decide; simpl; lia.
  - destruct (Ascii.eqb_spec c " ").
    + case_decide; simpl; specialize (IH ""); simpl in IH; lia.
    + specialize (IH (token +:+ String c "")).
      rewrite length_app in IH. simpl in IH. lia.
Qed.

Lemma tokenize_length cmd t1 t2 rest :
  tokenize cmd = t1 :: t2 :: rest →
  (String.length t1 + 1 + String.length t2 ≤ String.length cmd)%nat.
Proof.
  intros Htok. pose proof (tokenize_from_length "" cmd) as Hlen.
  fold (tokenize cmd) in Hlen. rewrite Htok in Hlen. simpl in Hlen. lia.
Qed.

Lemma find_substr ch s i :
  find ch s = Some i →
  ∃ s1 s2, s = s1 +:+ String ch s2 ∧ lacks ch s1 ∧
           substr s 0 (Some i) = Ok s1 ∧ substr s (i + 1) None = Ok s2.
Proof.
  intros (s1 & s2 & -> & <- & Hl)%find_Some. exists s1, s2.
  by rewrite substr_prefix, substr_suffix.
Qed.

(** ** Facts about [Reflector<A>::reflect] *)

Global Instance A_member_name_inj : Inj (=) (=) A_member_name.
Proof. by intros [] [] ?. Qed.

Section ReflectorFacts.
Variable A_reflect_members : list A_member_info.
Implicit Types (obj : addr) (m : A_member_info).

Lemma fold_add_to_map_lookup (ms : list A_member_info) (acc : MemberMap) obj name :
  fold_left (λ members m, A_add_to_map m members obj) ms acc !! name
  = match list_find (λ m, A_member_name m = name) ms with
    | Some (_, m) => Some (A_member_accessor m obj)
    | None => acc !! name
    end.
Proof.
  revert acc. induction ms as [|m ms IH]; intros acc; simpl; [done|].
  rewrite IH. unfold A_add_to_map. case_decide as Hm.
  - subst name. destruct (list_find _ ms) as [[k m']|] eqn:Hfind; simpl.
    + apply list_find_Some in Hfind as (_ & Heq & _).
      by apply (inj _) in Heq as ->.
    + by rewrite lookup_insert_eq.
  - destruct (list_find _ ms) as [[k m']|]; simpl; [done|].
    by rewrite lookup_insert_ne.
Qed.

(** The map holds the accessor of [m] under its name exactly when [m]
    is in the tuple, and holds nothing under any other key. *)
Lemma Reflector_A_reflect_member obj m :
  Reflector_A_reflect A_reflect_members obj !! A_member_name m
  = if decide (m ∈ A_reflect_members) then Some (A_member_accessor m obj) else None.
Proof.
  unfold Reflector_A_reflect. rewrite fold_add_to_map_lookup.
  destruct (list_find _ _) as [[k m']|] eqn:Hfind.
  - apply list_find_Some in Hfind as (Hk & Heq & _).
    apply (inj _) in Heq as ->. rewrite decide_True; [done|].
    by eapply list_elem_of_lookup_2.
  - rewrite lookup_empty. case_decide as Hin; [|done].
    apply list_find_None in Hfind. rewrite Forall_forall in Hfind.
    by destruct (Hfind m Hin).
Qed.

Lemma Reflector_A_reflect_Some obj name it :
  Reflector_A_reflect A_reflect_members obj !! name = Some it →
  ∃ m, m ∈ A_reflect_members ∧ name = A_member_name m ∧
       it = A_member_accessor m obj.
Proof.
  unfold Reflector_A_reflect. rewrite fold_add_to_map_lookup.
  destruct (list_find _ _) as [[k m']|] eqn:Hfind; [|by rewrite lookup_empty].
  apply list_find_Some in Hfind as (Hk & Heq & _). intros [= <-].
  exists m'. split_and!; [|done..]. by eapply list_elem_of_lookup_2.
Qed.

(** ** One activation of [parseAndExecute], without the arithmetic on
    positions *)

Abbreviation reflect := (Reflector_A_reflect A_reflect_members).
Abbreviation member := (parseAndExecute_member A_reflect_members).
Abbreviation nested := (parseAndExecute_nested A_reflect_members).
Abbreviation resolve := (parseAndExecute_resolve A_reflect_members).
Abbreviation body := (parseAndExecute_body A_reflect_members).

Lemma parseAndExecute_nested_eq operation objectId baseMember subPath value obj w :
  lacks "." baseMember →
  nested operation objectId (baseMember +:+ "." +:+ subPath) value
    (String.length baseMember) obj w
  = match reflect obj !! baseMember with
    | Some _ =>
        if decide (baseMember = "d") then
          Recurse (nested_command operation objectId subPath value)
        else Return (mkOutcome (Ok "") [] w)
    | None => Return (mkOutcome (Ok "") [] w)
    end.
Proof.
  intros Hl. unfold parseAndExecute_nested.
  rewrite app_cons, app_nil_l, substr_prefix, substr_suffix. done.
Qed.

Lemma parseAndExecute_resolve_eq operation objectId memberPath value w :
  lacks "." objectId →
  resolve operation (objectId +:+ "." +:+ memberPath) value w
  = match getObject objectId (objects_A w) with
    | None =>
        Return (mkOutcome (Ok "") ["Object not found: " +:+ objectId] w)
    | Some obj =>
        match find "." memberPath with
        | Some pos => nested operation objectId memberPath value pos obj w
        | None => member operation memberPath value obj w
        end
    end.
Proof.
  intros Hl. unfold parseAndExecute_resolve.
  rewrite app_cons, app_nil_l, find_app, substr_prefix, substr_suffix by done.
  done.
Qed.

Lemma parseAndExecute_resolve_no_dot operation pathSpec value w :
  lacks "." pathSpec →
  resolve operation pathSpec value w = Return (mkOutcome (Ok "") [] w).
Proof. unfold parseAndExecute_resolve, lacks. by intros ->. Qed.

Lemma parseAndExecute_body_short cmd w :
  (length (tokenize cmd) < 2)%nat →
  body cmd w = Return (mkOutcome (Ok "") [] w).
Proof.
  unfold parseAndExecute_body.
  destruct (tokenize cmd) as [|? [|? ?]]; simpl; [done..|lia].
Qed.

Lemma parseAndExecute_body_set cmd pathSpec value rest w :
  tokenize cmd = "set" :: (pathSpec +:+ "=" +:+ value) :: rest →
  lacks "=" pathSpec →
  body cmd w = resolve "set" pathSpec value w.
Proof.
  intros Htok Hl. unfold parseAndExecute_body. rewrite Htok.
  rewrite decide_True by done.
  rewrite app_cons, app_nil_l, find_app, substr_prefix, substr_suffix by done.
  done.
Qed.

Lemma parseAndExecute_body_set_no_eq cmd pathSpec rest w :
  tokenize cmd = "set" :: pathSpec :: rest →
  lacks "=" pathSpec →
  body cmd w = Return (mkOutcome (Ok "") [] w).
Proof.
  intros Htok Hl. unfold parseAndExecute_body. rewrite Htok.
  rewrite decide_True by done. unfold lacks in Hl. by rewrite Hl.
Qed.

Lemma parseAndExecute_body_other cmd operation pathSpec rest w :
  tokenize cmd = operation :: pathSpec :: rest →
  operation ≠ "set" →
  body cmd w = resolve operation pathSpec "" w.
Proof.
  intros Htok Hop. unfold parseAndExecute_body. rewrite Htok.
  by rewrite decide_False.
Qed.
End ReflectorFacts.

(** ** The nested call: its command, and why the recursion ends *)

Ltac split_lacks :=
  repeat match goal with
  | H : lacks _ (_ +:+ _) |- _ => apply lacks_app in H as [? ?]
  | H : lacks _ (String _ _) |- _ => apply lacks_cons in H as [? ?]
  end.

Ltac solve_lacks :=
  split_lacks;
  repeat first
    [ assumption
    | apply lacks_nil
    | apply lacks_app; split
    | apply lacks_cons; split; [discriminate|] ].

Section RecursionFacts.
Variable A_reflect_members : list A_member_info.

Abbreviation resolve := (parseAndExecute_resolve A_reflect_members).
Abbreviation body := (parseAndExecute_body A_reflect_members).

Lemma parseAndExecute_resolve_Recurse operation pathSpec value w cmd' :
  resolve operation pathSpec value w = Recurse cmd' →
  ∃ objectId subPath,
    pathSpec = objectId +:+ "." +:+ "d" +:+ "." +:+ subPath ∧
    lacks "." objectId ∧
    cmd' = nested_command operation objectId subPath value.
Proof.
  unfold parseAndExecute_resolve.
  destruct (find "." pathSpec) as [firstDot|] eqn:Hdot; [|done].
  apply find_substr in Hdot as (objectId & memberPath & -> & Hl & -> & ->).
  simpl. destruct (getObject _ _) as [obj|]; [|done].
  destruct (find "." memberPath) as [pos|] eqn:Hpos.
  - apply find_Some in Hpos as (baseMember & subPath & -> & <- & Hlb).
    change (baseMember +:+ String "." subPath)
      with (baseMember +:+ "." +:+ subPath).
    rewrite parseAndExecute_nested_eq by done.
    destruct (_ !! baseMember); [|done]. case_decide as Hd; [|done].
    subst baseMember. intros [= <-]. by exists objectId, subPath.
  - unfold parseAndExecute_member.
    repeat case_match; done.
Qed.

Lemma nested_command_tokenize operation objectId subPath value :
  lacks " " operation → operation ≠ "" →
  lacks " " objectId → lacks " " subPath → lacks " " value →
  ∃ pathSpec', tokenize (nested_command operation objectId subPath value)
               = [operation; pathSpec'].
Proof.
  intros. eexists. unfold nested_command. apply tokenize_two; [done| |done|].
  - case_decide; solve_lacks.
  - intros [_ [=]]%app_eq_nil.
Qed.

Lemma nested_command_length operation objectId subPath value :
  String.length (nested_command operation objectId subPath value)
  = (String.length operation + 1 + String.length objectId + 1
     + String.length subPath
     + (if decide (operation = "set") then 1 + String.length value else 0))%nat.
Proof.
  unfold nested_command. case_decide; rewrite !length_app; simpl; lia.
Qed.

(** The nested call keeps the operation and is on a shorter command. *)
Lemma parseAndExecute_body_Recurse cmd w cmd' :
  body cmd w = Recurse cmd' →
  ∃ operation pathSpec rest pathSpec',
    tokenize cmd = operation :: pathSpec :: rest ∧
    tokenize cmd' = [operation; pathSpec'] ∧
    (String.length cmd' < String.length cmd)%nat.
Proof.
  destruct (tokenize cmd) as [|operation [|pathSpec rest]] eqn:Htok;
    try (rewrite parseAndExecute_body_short by (rewrite Htok; simpl; lia); done).
  pose proof (tokenize_length _ _ _ _ Htok) as Hlen.
  destruct (tokenize_token cmd operation) as [Hop Hop']; [rewrite Htok; set_solver|].
  destruct (tokenize_token cmd pathSpec) as [Hps _]; [rewrite Htok; set_solver|].
  intros Hbody. exists operation, pathSpec, rest.
  destruct (decide (operation = "set")) as [->|Hset].
  - destruct (find "=" pathSpec) as [eqPos|] eqn:Heq.
    + apply find_Some in Heq as (path & value & -> & _ & Hl).
      change (path +:+ String "=" value) with (path +:+ "=" +:+ value) in *.
      rewrite (parseAndExecute_body_set _ _ _ _ _ _ Htok Hl) in Hbody.
      apply parseAndExecute_resolve_Recurse
        in Hbody as (objectId & subPath & -> & _ & ->).
      split_lacks.
      destruct (nested_command_tokenize "set" objectId subPath value)
        as [pathSpec' Htok']; [done..|].
      exists pathSpec'. split_and!; [done..|].
      rewrite nested_command_length. rewrite !length_app in Hlen.
      simpl in *. lia.
    + by rewrite (parseAndExecute_body_set_no_eq _ _ _ _ _ Htok Heq) in Hbody.
  - rewrite (parseAndExecute_body_other _ _ _ _ _ _ Htok Hset) in Hbody.
    apply parseAndExecute_resolve_Recurse
      in Hbody as (objectId & subPath & -> & _ & ->).
    split_lacks.
    destruct (nested_command_tokenize operation objectId subPath "")
      as [pathSpec' Htok']; [done..|].
    exists pathSpec'. split_and!; [done..|].
    rewrite nested_command_length. rewrite !length_app in Hlen.
    rewrite decide_False by done. simpl in *. lia.
Qed.

(** With a bound above the length of the command the recursion returns. *)
Lemma parseAndExecute_fuel_enough fuel cmd w :
  (String.length cmd < fuel)%nat →
  is_Some (parseAndExecute_fuel A_reflect_members fuel cmd w).
Proof.
  revert cmd. induction fuel as [|fuel IH]; intros cmd Hlt; [lia|]. simpl.
  destruct (parseAndExecute_body _ cmd w) as [o|cmd'] eqn:Hbody; [by eexists|].
  apply parseAndExecute_body_Recurse in Hbody as (_ & _ & _ & _ & _ & _ & Hlen).
  apply IH. lia.
Qed.

Lemma parseAndExecute_total cmd w :
  is_Some (parseAndExecute A_reflect_members cmd w).
Proof. apply parseAndExecute_fuel_enough. lia. Qed.

(** A property of the command and the outcome that holds where an
    activation returns, and is carried from the nested call to the
    caller, holds of every call. *)
Lemma parseAndExecute_fuel_ind (w : World) (P : string → Outcome → Prop) :
  (∀ cmd o, body cmd w = Return o → P cmd o) →
  (∀ cmd cmd' o, body cmd w = Recurse cmd' → P cmd' o → P cmd o) →
  ∀ fuel cmd o,
    parseAndExecute_fuel A_reflect_members fuel cmd w = Some o → P cmd o.
Proof.
  intros Hret Hrec. induction fuel as [|fuel IH]; intros cmd o; simpl; [done|].
  destruct (parseAndExecute_body _ cmd w) as [o'|cmd'] eqn:Hbody.
  - intros [= <-]. by apply Hret.
  - intros Hcall. eapply Hrec; [done|]. by apply IH.
Qed.
End RecursionFacts.

(** ** The life cycle and the registry *)

Section LifecycleFacts.
Context `{Countable T}.
Implicit Types (s : Instances T) (this : T) (op : lifecycle_op T).



Lemma construct_empty s this : construct this "" s = (Throw invalid_argument, s).
Proof. done. Qed.

Lemma rename_empty s this id :
  object_ids s !! this = Some id →
  rename this "" s = (Throw invalid_argument, s).
Proof. unfold rename. by intros ->. Qed.










End LifecycleFacts.



(** C6.  Constructing an object with the empty identifier throws and
    leaves the state as it was (no instance, no registry entry), for
    [Reflectable] in general and for [A] with its member [d]; renaming a
    live instance to the empty identifier throws and leaves the state as
    it was, so the instance keeps its identifier and its entry. *)
Theorem empty_identifier_rejected `{Countable T} (s : Instances T)
    (this other : T) (w : World) (obj : addr) :
  construct other "" s = (Throw invalid_argument, s) ∧
  (is_Some (object_ids s !! this) →
   rename this "" s = (Throw invalid_argument, s)) ∧
  A_ctor obj "" w = (Throw invalid_argument, w).
Proof.
  split_and!; [done| |done]. intros [id Hid]. by eapply rename_empty.
Qed.

Lemma empty_identifier_rejected_witness :
  let s := run [Construct 0%nat "k"] no_instances in
  (object_ids s !! 0%nat = Some "k" ∧ objects s !! "k" = Some 0%nat) ∧
  construct 1%nat "" s = (Throw invalid_argument, s) ∧
  rename 0%nat "" s = (Throw invalid_argument, s) ∧
  A_ctor 1%nat "" main_world = (Throw invalid_argument, main_world).
Proof.
  split; [by vm_compute|].
  destruct (empty_identifier_rejected
              (run [Construct 0%nat "k"] no_instances) 0%nat 1%nat main_world 1%nat)
    as (Hc & Hr & Ha).
  split_and!; [exact Hc| |exact Ha]. apply Hr. exists "k". by vm_compute.
Defined.

(** ** The accessors *)

Lemma same_objects_refl w : same_objects w w.
Proof. done. Qed.

Lemma same_objects_insert w obj o o' :
  heap w !! obj = Some o → A_object_id o' = A_object_id o →
  same_objects w (set_heap (<[obj := o']> (heap w)) w).
Proof.
  intros Ho Hid. split; [done|]. intros obj'. simpl.
  destruct (decide (obj = obj')) as [<-|].
  - rewrite lookup_insert_eq, Ho. simpl. by rewrite Hid.
  - by rewrite lookup_insert_ne.
Qed.

Lemma same_objects_Record w w' objs :
  same_objects w w' → same_objects w (set_objects_Record objs w').
Proof. done. Qed.

Lemma store_Record_same r v w w' :
  store_Record r v w = Some w' → same_objects w w'.
Proof.
  destruct r as [obj|]; simpl; [|done].
  destruct (heap w !! obj) as [o|] eqn:Ho; simpl; [|done].
  intros [= <-]. by eapply same_objects_insert.
Qed.

Lemma store_int_same p v w w' :
  store_int p v w = Some w' → same_objects w w'.
Proof.
  destruct p as [obj|r]; simpl.
  - destruct (heap w !! obj) as [o|] eqn:Ho; simpl; [|done].
    intros [= <-]. by eapply same_objects_insert.
  - destruct (load_Record r w); simpl; [|done]. apply store_Record_same.
Qed.

Lemma store_string_same p v w w' :
  store_string p v w = Some w' → same_objects w w'.
Proof.
  destruct p as [r]; simpl.
  destruct (load_Record r w); simpl; [|done]. apply store_Record_same.
Qed.

(** [setValue] keeps the registry of [A], the objects that are alive
    and their identifiers. *)
Lemma setValue_same mi value w : same_objects w (setValue mi value w).2.
Proof.
  destruct mi as [member|member|member]; simpl.
  - destruct (lexical_cast_int value) as [v|]; [|done].
    destruct (store_int member v w) eqn:Hst; [|done].
    by eapply store_int_same.
  - destruct (store_string member value w) eqn:Hst; [|done].
    by eapply store_string_same.
  - destruct (TypeTraits_Record_fromString _ _) as [[tmp|e] objs]; [|done].
    destruct (store_Record member tmp w) eqn:Hst; [|done].
    simpl. by eapply same_objects_Record, store_Record_same.
Qed.

Lemma same_objects_wf w w' : same_objects w w' → wf_world w → wf_world w'.
Proof.
  intros [HA Hheap] Hwf id obj. rewrite HA. intros (Hne & o & Ho & Hid)%Hwf.
  split; [done|].
  specialize (Hheap obj). rewrite Ho in Hheap. simpl in Hheap.
  destruct (heap w' !! obj) as [o'|]; [|done]. exists o'. naive_solver.
Qed.

Lemma wf_world_empty : wf_world empty_world.
Proof. intros id obj. simpl. by rewrite lookup_empty. Qed.

(** Constructing an [A] where no object lives and destroying a live
    [A] keep the registry free of dangling pointers. *)
Lemma A_ctor_wf this id w :
  wf_world w → heap w !! this = None → wf_world (A_ctor this id w).2.
Proof.
  intros Hwf Hfresh. unfold A_ctor, _register_self, registerObject.
  case_decide as Hid; simpl; [done|].
  intros k obj. simpl. intros [[<- <-]|[Hk Hobj]]%lookup_insert_Some.
  - split; [done|]. eexists. by rewrite lookup_insert_eq.
  - destruct (Hwf _ _ Hobj) as (Hne & o & Ho & Hido). split; [done|].
    exists o. split; [|done]. rewrite lookup_insert_ne; [done|]. congruence.
Qed.

Lemma A_dtor_wf this w : wf_world w → wf_world (A_dtor this w).2.
Proof.
  intros Hwf. unfold A_dtor.
  destruct (heap w !! this) as [o|] eqn:Ho; simpl; [|done].
  unfold Reflectable_dtor, unregisterObject. intros k obj. simpl.
  intros Hk.
  assert (objects_A w !! k = Some obj ∧ (A_object_id o ≠ "" → k ≠ A_object_id o))
    as [Hobj Hne'].
  { case_decide; [done|].
    apply lookup_delete_Some in Hk as [? ?]. naive_solver. }
  destruct (Hwf _ _ Hobj) as (Hne & o' & Ho' & Hido). split; [done|].
  exists o'. split; [|done]. rewrite lookup_delete_ne; [done|].
  intros <-. simplify_eq. naive_solver.
Qed.

Lemma wf_world_main : wf_world main_world.
Proof. apply A_ctor_wf; [apply wf_world_empty|done]. Qed.

Lemma setValue_wf mi value w : wf_world w → wf_world (setValue mi value w).2.
Proof. apply same_objects_wf, setValue_same. Qed.

(** A text [fromString] accepts, on an accessor whose pointer is valid:
    [setValue] returns [true] and the member reads back as the encoding
    of the decoded value. *)
Lemma setValue_accepted mi value w text :
  reencode mi value = Ok text →
  is_Some (match getValue mi w with Ok s => Some s | Throw _ => None end) →
  ∃ w', setValue mi value w = (Ok true, w') ∧ getValue mi w' = Ok text.
Proof.
  destruct mi as [[obj|[obj|]]|[[obj|]]|[obj|]]; simpl;
    unfold TypeTraits_Record_fromString; simpl;
    try (destruct (heap w !! obj) as [o|] eqn:Ho; simpl);
    try by intros _ [? [=]].
  - destruct (lexical_cast_int value) as [v|]; simpl; [|done].
    intros [= <-] _. eexists. split; [done|]. simpl.
    by rewrite lookup_insert_eq.
  - destruct (lexical_cast_int value) as [v|]; simpl; [|done].
    intros [= <-] _. eexists. split; [done|]. simpl.
    by rewrite lookup_insert_eq.
  - intros [= <-] _. eexists. split; [done|]. simpl.
    by rewrite lookup_insert_eq.
  - destruct (TypeTraits_Record_fromString_body _ value) as [r|]; simpl; [|done].
    intros [= <-] _. eexists. split; [done|]. simpl.
    by rewrite lookup_insert_eq.
Qed.

Lemma getValue_accessor m obj o w :
  heap w !! obj = Some o →
  getValue (A_member_accessor m obj) w = Ok (A_member_text m o).
Proof. intros Ho. destruct m; simpl; by rewrite Ho. Qed.

(** [getValue] reads the objects and nothing else. *)
Lemma getValue_heap mi w w' : heap w' = heap w → getValue mi w' = getValue mi w.
Proof.
  intros Hh. destruct mi as [[obj|[obj|]]|[[obj|]]|[obj|]]; simpl; by rewrite ?Hh.
Qed.

(** On a valid accessor [setValue] does not leave with an exception. *)
Lemma setValue_returns m obj o value w :
  heap w !! obj = Some o →
  ∃ b w', setValue (A_member_accessor m obj) value w = (Ok b, w').
Proof.
  intros Ho. destruct m; simpl.
  - destruct (lexical_cast_int value); rewrite ?Ho; simpl; by eexists _, _.
  - destruct (TypeTraits_Record_fromString _ _) as [[r|e] objs];
      rewrite ?Ho; simpl; by eexists _, _.
Qed.

(** ** What an activation that returns has done *)

Section CommandFacts.
Variable A_reflect_members : list A_member_info.

Abbreviation reflect := (Reflector_A_reflect A_reflect_members).
Abbreviation member := (parseAndExecute_member A_reflect_members).
Abbreviation resolve := (parseAndExecute_resolve A_reflect_members).
Abbreviation body := (parseAndExecute_body A_reflect_members).

Lemma parseAndExecute_Return cmd w o :
  body cmd w = Return o → parseAndExecute A_reflect_members cmd w = Some o.
Proof. unfold parseAndExecute. simpl. by intros ->. Qed.

Lemma parseAndExecute_member_reflected operation m value obj w :
  m ∈ A_reflect_members →
  member operation (A_member_name m) value obj w
  = let it := A_member_accessor m obj in
    if decide (operation = "set") then
      Return (mkOutcome (set_result value (setValue it value w).1) []
                (setValue it value w).2)
    else if decide (operation = "get") then
      Return (mkOutcome (getValue it w) [] w)
    else Return (mkOutcome (Ok "") [] w).
Proof.
  intros Hm. unfold parseAndExecute_member.
  rewrite Reflector_A_reflect_member, decide_True by done. simpl.
  case_decide; [|done].
  by destruct (setValue _ value w) as [[[|]|e] w'].
Qed.

Lemma parseAndExecute_member_absent operation name value obj w :
  reflect obj !! name = None →
  member operation name value obj w
  = Return (mkOutcome (Ok "") ["Member not found: " +:+ name] w).
Proof. unfold parseAndExecute_member. by intros ->. Qed.

(** An activation that returns either returns the empty string and
    leaves the state as it was, or has reached the accessor of a
    reflected member of a registered object with [set] or [get]. *)
Lemma parseAndExecute_resolve_Return operation pathSpec value w o :
  resolve operation pathSpec value w = Return o →
  (returned o = Ok "" ∧ world o = w) ∨ accessed A_reflect_members operation w o.
Proof.
  unfold parseAndExecute_resolve.
  destruct (find "." pathSpec) as [firstDot|] eqn:Hdot;
    [|intros [= <-]; by left].
  apply find_substr in Hdot as (objectId & memberPath & -> & Hl & -> & ->).
  simpl. destruct (getObject _ _) as [obj|] eqn:Hobj;
    [|intros [= <-]; by left].
  destruct (find "." memberPath) as [pos|] eqn:Hpos.
  - apply find_substr in Hpos as (baseMember & subPath & -> & Hlb & Hb & Hs).
    unfold parseAndExecute_nested. rewrite Hb, Hs. simpl.
    repeat case_match; intros [= <-]; by left.
  - destruct (reflect obj !! memberPath) as [it|] eqn:Hit.
    + apply Reflector_A_reflect_Some in Hit as (m & Hm & -> & ->).
      rewrite parseAndExecute_member_reflected by done. simpl.
      repeat case_decide; intros [= <-]; [right..|by left];
        exists objectId, obj, m, value; naive_solver.
    + rewrite parseAndExecute_member_absent by done. intros [= <-]. by left.
Qed.

Lemma parseAndExecute_body_Return cmd operation rest w o :
  tokenize cmd = operation :: rest →
  body cmd w = Return o →
  (returned o = Ok "" ∧ world o = w) ∨ accessed A_reflect_members operation w o.
Proof.
  intros Htok. unfold parseAndExecute_body. rewrite Htok.
  destruct rest as [|pathSpec rest]; [intros [= <-]; by left|].
  case_decide as Hset.
  - destruct (find "=" pathSpec) as [eqPos|] eqn:Heq;
      [|intros [= <-]; by left].
    apply find_substr in Heq as (path & value & -> & _ & -> & ->). simpl.
    by apply parseAndExecute_resolve_Return.
  - by apply parseAndExecute_resolve_Return.
Qed.
End CommandFacts.

(** ** The dispatcher: read-only, rejecting and safe commands *)

Section DispatcherProperties.
Variable A_reflect_members : list A_member_info.

Abbreviation body := (parseAndExecute_body A_reflect_members).
Abbreviation call := (parseAndExecute A_reflect_members).

(** A property of the operation and the outcome that holds where an
    activation returns holds of the call: the nested calls keep the
    operation. *)
Lemma parseAndExecute_operation_ind (w : World) (P : string → Outcome → Prop) :
  (∀ cmd operation rest o,
     tokenize cmd = operation :: rest → body cmd w = Return o → P operation o) →
  ∀ cmd operation rest o,
    tokenize cmd = operation :: rest → call cmd w = Some o → P operation o.
Proof.
  intros Hret cmd operation rest o Htok Hcall. revert operation rest Htok.
  unfold parseAndExecute in Hcall.
  apply (parseAndExecute_fuel_ind A_reflect_members w
           (λ cmd o, ∀ operation rest,
              tokenize cmd = operation :: rest → P operation o))
    with (fuel := S (String.length cmd)); [| |done].
  - intros cmd0 o0 Hbody operation rest Htok. by eapply Hret.
  - intros cmd0 cmd' o0 Hbody IH operation rest Htok.
    apply parseAndExecute_body_Recurse
      in Hbody as (op & ps & rest' & ps' & Htok0 & Htok' & _).
    rewrite Htok0 in Htok. injection Htok as <- _. by eapply IH.
Qed.

(** Every call returns; it either returns the empty string and leaves
    the state as it was, or has reached an accessor. *)
Lemma parseAndExecute_outcome cmd w :
  ∃ o, call cmd w = Some o ∧
       ((returned o = Ok "" ∧ world o = w) ∨
        ∃ operation rest, tokenize cmd = operation :: rest ∧
                          accessed A_reflect_members operation w o).
Proof.
  destruct (parseAndExecute_total A_reflect_members cmd w) as [o Ho].
  exists o. split; [done|].
  destruct (tokenize cmd) as [|operation rest] eqn:Htok.
  - left. unfold parseAndExecute, parseAndExecute_fuel, parseAndExecute_body in Ho.
    rewrite Htok in Ho. by injection Ho as <-.
  - destruct (parseAndExecute_operation_ind w
                (λ operation o, (returned o = Ok "" ∧ world o = w) ∨
                                accessed A_reflect_members operation w o))
      with (cmd := cmd) (operation := operation) (rest := rest) (o := o)
      as [?|?]; [|done..| |]; [|by left|right; by eexists _, _].
    intros cmd0 op rest0 o0. apply parseAndExecute_body_Return.
Qed.

(** C9.  A command whose operation token is [get] returns, and leaves
    the objects, their members and the registries as they were. *)
Theorem get_is_read_only (cmd : string) (rest : list string) (w : World) :
  tokenize cmd = "get" :: rest →
  ∃ o, call cmd w = Some o ∧ world o = w.
Proof.
  intros Htok. destruct (parseAndExecute_outcome cmd w) as (o & Ho & Hcases).
  exists o. split; [done|].
  destruct Hcases as [[_ ?]|(op & rest' & Htok' & Hacc)]; [done|].
  rewrite Htok in Htok'. injection Htok' as <- _.
  by destruct Hacc as (id & obj & m & v & _ & _ & [[[=] _]|[_ ->]]).
Qed.

(** C7.  A malformed command returns the empty string and leaves the
    objects, their members and the registries as they were (the lines
    written to [std::cerr] apart). *)
Theorem malformed_command_rejected (cmd : string) (w : World) :
  malformed cmd →
  ∃ log, call cmd w = Some (mkOutcome (Ok "") log w).
Proof.
  unfold malformed.
  destruct (tokenize cmd) as [|operation [|pathSpec rest]] eqn:Htok.
  - intros _. exists []. apply parseAndExecute_Return.
    apply parseAndExecute_body_short. rewrite Htok. simpl. lia.
  - intros _. exists []. apply parseAndExecute_Return.
    apply parseAndExecute_body_short. rewrite Htok. simpl. lia.
  - intros [Hpath|[[-> Heq]|[Hget Hset]]].
    + exists []. apply parseAndExecute_Return. unfold command_path in Hpath.
      case_decide as Hop.
      * subst operation. destruct (find "=" pathSpec) as [eqPos|] eqn:Heq.
        -- apply find_Some in Heq as (path & value & -> & <- & Hl).
           rewrite take_chars_app in Hpath.
           change (path +:+ String "=" value) with (path +:+ "=" +:+ value) in Htok.
           rewrite (parseAndExecute_body_set _ _ _ _ _ _ Htok Hl).
           by apply parseAndExecute_resolve_no_dot.
        -- by eapply parseAndExecute_body_set_no_eq.
      * rewrite (parseAndExecute_body_other _ _ _ _ _ _ Htok Hop).
        by apply parseAndExecute_resolve_no_dot.
    + exists []. apply parseAndExecute_Return.
      by eapply parseAndExecute_body_set_no_eq.
    + destruct (parseAndExecute_outcome cmd w) as (o & Ho & Hcases).
      exists (cerr o). rewrite Ho.
      destruct Hcases as [[Hr Hw]|(op & rest' & Htok' & Hacc)].
      * destruct o. simpl in *. by subst.
      * rewrite Htok in Htok'. injection Htok' as <- _.
        by destruct Hacc as (id & obj & m & v & _ & _ & [[? _]|[? _]]).
Qed.

(** C8.  In a state whose registry has no dangling pointer, every
    command string makes [parseAndExecute] return a string: the
    recursion ends and no exception leaves the call.  The string is
    empty and the state as it was unless the call reached the accessor
    of a reflected member of a registered object; the state it leaves is
    again without dangling pointer, so the next call is as safe. *)
Theorem parseAndExecute_safe (cmd : string) (w : World) :
  wf_world w →
  ∃ text log w',
    call cmd w = Some (mkOutcome (Ok text) log w') ∧ wf_world w' ∧
    ((text = "" ∧ w' = w) ∨
     ∃ operation, accessed A_reflect_members operation w
                    (mkOutcome (Ok text) log w')).
Proof.
  intros Hwf. destruct (parseAndExecute_outcome cmd w) as (o & Ho & Hcases).
  rewrite Ho. destruct Hcases as [[Hr Hw]|(op & rest & _ & Hacc)].
  - exists "", (cerr o), w. destruct o. simpl in *. subst. eauto.
  - pose proof Hacc as (id & obj & m & v & Hobj & _ & Hit).
    destruct (Hwf _ _ Hobj) as (_ & a & Ha & _).
    assert (∃ text, returned o = Ok text ∧ wf_world (world o))
      as (text & Htext & Hwf').
    { destruct Hit as [[_ ->]|[_ ->]]; simpl.
      - destruct (setValue_returns m obj a v w Ha) as (b & w' & Hset).
        rewrite Hset. simpl. destruct b; eauto using setValue_wf.
        all: eexists; split; [done|];
          pose proof (setValue_wf (A_member_accessor m obj) v w Hwf) as Hwf';
          by rewrite Hset in Hwf'.
      - rewrite (getValue_accessor _ _ _ _ Ha). eauto. }
    exists text, (cerr o), (world o). destruct o. simpl in *. subst. eauto.
Qed.

End DispatcherProperties.

(** X1.  With the empty tuple, which [count = 0] gives, the member map
    of every object is empty: every command returns the empty string
    and leaves the state as it was. *)
Theorem empty_tuple_rejects_everything (cmd : string) (w : World) :
  ∃ log, parseAndExecute [] cmd w = Some (mkOutcome (Ok "") log w).
Proof.
  destruct (parseAndExecute_outcome [] cmd w) as (o & Ho & Hcases).
  exists (cerr o). rewrite Ho.
  destruct Hcases as [[Hr Hw]|(op & rest & _ & Hacc)].
  - destruct o. simpl in *. by subst.
  - destruct Hacc as (id & obj & m & v & _ & Hm & _).
    by apply elem_of_nil in Hm.
Qed.

Lemma get_is_read_only_witness :
  tokenize "get test_object.d.a" = ["get"; "test_object.d.a"] ∧
  ∃ o, parseAndExecute A__reflect_members "get test_object.d.a" main_world = Some o ∧
       world o = main_world.
Proof.
  split; [reflexivity|].
  apply (get_is_read_only A__reflect_members "get test_object.d.a"
           ["test_object.d.a"] main_world).
  reflexivity.
Defined.

(** The error cases of [main]: a [set] without value and an unknown
    operation. *)
Lemma malformed_command_rejected_witness :
  (malformed "set test_object.a" ∧
   ∃ log, parseAndExecute A__reflect_members "set test_object.a" main_world
          = Some (mkOutcome (Ok "") log main_world)) ∧
  (malformed "invalid test_object.a" ∧
   ∃ log, parseAndExecute A__reflect_members "invalid test_object.a" main_world
          = Some (mkOutcome (Ok "") log main_world)).
Proof.
  assert (H1 : malformed "set test_object.a")
    by (right; left; split; reflexivity).
  assert (H2 : malformed "invalid test_object.a")
    by (right; right; split; discriminate).
  split; (split; [assumption|]).
  - exact (malformed_command_rejected A__reflect_members _ main_world H1).
  - exact (malformed_command_rejected A__reflect_members _ main_world H2).
Defined.

Lemma parseAndExecute_safe_witness :
  wf_world main_world ∧
  ∃ text log w',
    parseAndExecute A__reflect_members "set test_object.a=42" main_world
    = Some (mkOutcome (Ok text) log w') ∧ wf_world w'.
Proof.
  split; [exact wf_world_main|].
  destruct (parseAndExecute_safe A__reflect_members "set test_object.a=42"
              main_world wf_world_main)
    as (text & log & w' & Hcall & Hwf & _).
  exists text, log, w'. split; [exact Hcall|exact Hwf].
Defined.

(** ** The commands [get id.name] and [set id.name=value] *)

Section GetSetFacts.
Variable A_reflect_members : list A_member_info.

Abbreviation reflect := (Reflector_A_reflect A_reflect_members).
Abbreviation member := (parseAndExecute_member A_reflect_members).
Abbreviation resolve := (parseAndExecute_resolve A_reflect_members).
Abbreviation body := (parseAndExecute_body A_reflect_members).
Abbreviation call := (parseAndExecute A_reflect_members).

Lemma get_command_body id path w :
  path_segment id → lacks " " path →
  body (get_command id path) w = resolve "get" (id +:+ "." +:+ path) "" w.
Proof.
  intros (Hs & Hd & He) Hp. unfold get_command.
  apply parseAndExecute_body_other with (rest := []); [|done].
  apply tokenize_two; [done| |done|].
  - solve_lacks.
  - intros [_ [=]]%app_eq_nil.
Qed.

Lemma set_command_body id path value w :
  path_segment id → lacks " " path → lacks "=" path → lacks " " value →
  body (set_command id path value) w = resolve "set" (id +:+ "." +:+ path) value w.
Proof.
  intros (Hs & Hd & He) Hp Hpe Hv. unfold set_command.
  apply parseAndExecute_body_set with (rest := []); [|solve_lacks].
  replace (id +:+ "." +:+ path +:+ "=" +:+ value)
    with ((id +:+ "." +:+ path) +:+ "=" +:+ value) by (by rewrite !app_assoc).
  apply tokenize_two; [done| |done|].
  - solve_lacks.
  - intros [[_ [=]]%app_eq_nil _]%app_eq_nil.
Qed.

Lemma A_member_name_lacks m :
  lacks " " (A_member_name m) ∧ lacks "." (A_member_name m) ∧
  lacks "=" (A_member_name m).
Proof. by destruct m. Qed.

(** [get id.f] and [set id.f=value] on a registered object, for a
    declared member [f]: the accessor is used when the member is in the
    reflected tuple, and the member is reported missing otherwise. *)
Lemma get_member_call id m obj w :
  path_segment id → objects_A w !! id = Some obj →
  call (get_command id (A_member_name m)) w
  = Some (if decide (m ∈ A_reflect_members)
          then mkOutcome (getValue (A_member_accessor m obj) w) [] w
          else mkOutcome (Ok "") ["Member not found: " +:+ A_member_name m] w).
Proof.
  intros Hid Hobj. destruct (A_member_name_lacks m) as (Hs & Hd & He).
  apply parseAndExecute_Return. rewrite get_command_body by done.
  rewrite parseAndExecute_resolve_eq by apply Hid.
  unfold getObject. rewrite Hobj. unfold lacks in Hd. rewrite Hd.
  case_decide as Hm.
  - by rewrite parseAndExecute_member_reflected.
  - apply parseAndExecute_member_absent.
    by rewrite Reflector_A_reflect_member, decide_False.
Qed.

Lemma set_member_call id m obj value w :
  path_segment id → lacks " " value → objects_A w !! id = Some obj →
  call (set_command id (A_member_name m) value) w
  = Some (if decide (m ∈ A_reflect_members)
          then mkOutcome (set_result value (setValue (A_member_accessor m obj) value w).1)
                 [] (setValue (A_member_accessor m obj) value w).2
          else mkOutcome (Ok "") ["Member not found: " +:+ A_member_name m] w).
Proof.
  intros Hid Hv Hobj. destruct (A_member_name_lacks m) as (Hs & Hd & He).
  apply parseAndExecute_Return. rewrite set_command_body by done.
  rewrite parseAndExecute_resolve_eq by apply Hid.
  unfold getObject. rewrite Hobj. unfold lacks in Hd. rewrite Hd.
  case_decide as Hm.
  - by rewrite parseAndExecute_member_reflected.
  - apply parseAndExecute_member_absent.
    by rewrite Reflector_A_reflect_member, decide_False.
Qed.

(** C10.  The root identifier of a command is looked up in the registry
    of [A] and nowhere else: when that registry has no entry for [id],
    [get id.path] and [set id.path=value] report that the object is not
    found and return the empty string, whatever the registry of [Record]
    holds for [id], and leave the state as it was. *)
Theorem root_resolved_in_registry_of_A (id path value : string) (w : World) :
  path_segment id → lacks " " path → lacks "=" path → lacks " " value →
  objects_A w !! id = None →
  let not_found := mkOutcome (Ok "") ["Object not found: " +:+ id] w in
  call (get_command id path) w = Some not_found ∧
  call (set_command id path value) w = Some not_found.
Proof.
  intros Hid Hp Hpe Hv Hobj not_found.
  split; apply parseAndExecute_Return.
  - rewrite get_command_body by done.
    rewrite parseAndExecute_resolve_eq by apply Hid.
    unfold getObject. by rewrite Hobj.
  - rewrite set_command_body by done.
    rewrite parseAndExecute_resolve_eq by apply Hid.
    unfold getObject. by rewrite Hobj.
Qed.
End GetSetFacts.

(** The [Record] registered as ["record_1"], the member [d] of the
    object of [main]: it is in the registry of [Record], and commands on
    [record_1] do not find it. *)
Lemma root_resolved_in_registry_of_A_witness :
  let not_found :=
    mkOutcome (Ok "") ["Object not found: record_1"] main_world in
  (objects_Record main_world !! "record_1" = Some (Ptr_A_d 0%nat) ∧
   objects_A main_world !! "record_1" = None) ∧
  parseAndExecute A__reflect_members "get record_1.a" main_world = Some not_found ∧
  parseAndExecute A__reflect_members "set record_1.a=42" main_world = Some not_found.
Proof.
  split; [by vm_compute|].
  apply (root_resolved_in_registry_of_A A__reflect_members
           "record_1" "a" "42" main_world); by vm_compute.
Defined.

(** ** Setting and reading back a member *)

Lemma A__reflect_members_empty m : m ∉ A__reflect_members.
Proof. apply not_elem_of_nil. Qed.

(** In the program no name is the name of a reflected member: [get] and
    [set] on a registered object end at line 346. *)
Lemma member_not_found id m value obj w :
  path_segment id → lacks " " value → objects_A w !! id = Some obj →
  let not_found :=
    mkOutcome (Ok "") ["Member not found: " +:+ A_member_name m] w in
  parseAndExecute A__reflect_members (set_command id (A_member_name m) value) w
  = Some not_found ∧
  parseAndExecute A__reflect_members (get_command id (A_member_name m)) w
  = Some not_found.
Proof.
  intros Hid Hv Hobj. simpl.
  rewrite (set_member_call _ id m obj), (get_member_call _ id m obj) by done.
  by rewrite !decide_False by apply A__reflect_members_empty.
Qed.

(** What [setValue] does with a text that [fromString] rejects. *)
Lemma setValue_rejected_effect mi value w e :
  reencode mi value = Throw e →
  setValue mi value w
  = (Ok false,
     match mi with
     | MemberInfo_Record _ =>
         set_objects_Record (delete "default" (objects_Record w)) w
     | _ => w
     end).
Proof.
  destruct mi as [member|member|member]; simpl.
  - by destruct (lexical_cast_int value).
  - done.
  - unfold TypeTraits_Record_fromString, _register_self, registerObject.
    rewrite decide_False by done.
    destruct (TypeTraits_Record_fromString_body _ value); [done|]. intros _.
    unfold Reflectable_dtor, unregisterObject. rewrite decide_False by done.
    by rewrite delete_insert_eq.
Qed.

Lemma to_string_int_nonempty (val : Z) : to_string_int val ≠ "".
Proof.
  unfold to_string_int. destruct val as [|p|p]; simpl; [done|..];
    pose proof (Unsigned.to_uint_nonnil p) as Hnil;
    by destruct (Pos.to_uint p).
Qed.

Lemma A_member_text_nonempty m o : A_member_text m o ≠ "".
Proof.
  destruct m; simpl; [apply to_string_int_nonempty|].
  unfold TypeTraits_Record_toString. intros [_ Heq]%app_eq_nil.
  by apply app_eq_nil in Heq as [? _].
Qed.

(** C3, on the code.  On every accessor a text that [fromString] of the
    member's type rejects makes [setValue] return [false] and leaves
    every object as it was, so [getValue] reads what it read before; for
    a [Record] member the registry of [Record] loses its entry for
    ["default"], and nothing else changes.  The commands do not get
    that far: [set id.f=text] on a registered object returns the empty
    string because the member map is empty, and so does [get id.f],
    where the claim has the text of the value the member holds, which is
    never empty. *)
Theorem invalid_text_rejected (mi : MemberInfo) (e : exception)
    (id value : string) (m : A_member_info) (obj : addr) (o : A) (w : World) :
  (reencode mi value = Throw e →
   let w' := match mi with
             | MemberInfo_Record _ =>
                 set_objects_Record (delete "default" (objects_Record w)) w
             | _ => w
             end in
   setValue mi value w = (Ok false, w') ∧ getValue mi w' = getValue mi w) ∧
  (path_segment id → lacks " " value →
   objects_A w !! id = Some obj → heap w !! obj = Some o →
   let not_found :=
     mkOutcome (Ok "") ["Member not found: " +:+ A_member_name m] w in
   parseAndExecute A__reflect_members (set_command id (A_member_name m) value) w
   = Some not_found ∧
   parseAndExecute A__reflect_members (get_command id (A_member_name m)) w
   = Some not_found ∧
   getValue (A_member_accessor m obj) w = Ok (A_member_text m o) ∧
   A_member_text m o ≠ "").
Proof.
  split.
  - intros Hrej. simpl. split; [by eapply setValue_rejected_effect|].
    apply getValue_heap. by destruct mi.
  - intros Hid Hv Hobj Ho. simpl.
    destruct (member_not_found id m value obj w Hid Hv Hobj) as [Hset Hget].
    split_and!; [done..| |].
    + by apply getValue_accessor.
    + apply A_member_text_nonempty.
Qed.

(** The object of [main] and the text [4x2], which is not an [int]: the
    accessor of [a] rejects it and leaves the state as it is; the
    commands return the empty string, the [get] too, while [a] holds
    1. *)
Lemma invalid_text_rejected_witness :
  let o := mkA "test_object" 1 (mkRecord "record_1" 2 "hello") "nonreflectable" in
  (reencode (MemberInfo_int (Ptr_A_a 0%nat)) "4x2" = Throw bad_lexical_cast ∧
   heap main_world !! 0%nat = Some o) ∧
  setValue (MemberInfo_int (Ptr_A_a 0%nat)) "4x2" main_world = (Ok false, main_world) ∧
  session A__reflect_members ["set test_object.a=4x2"; "get test_object.a"]
    main_world = [Some (Ok ""); Some (Ok "")] ∧
  getValue (MemberInfo_int (Ptr_A_a 0%nat)) main_world = Ok "1".
Proof.
  split; [by vm_compute|].
  destruct (invalid_text_rejected (MemberInfo_int (Ptr_A_a 0%nat)) bad_lexical_cast
              "test_object" "4x2" A_member_info_a 0%nat
              (mkA "test_object" 1 (mkRecord "record_1" 2 "hello") "nonreflectable")
              main_world) as [Hacc Hcmd].
  destruct Hacc as [Hset _]; [by vm_compute|].
  destruct Hcmd as (Hs & Hg & Hv & _); [by vm_compute..|].
  split_and!; [exact Hset| |exact Hv].
  change "set test_object.a=4x2"
    with (set_command "test_object" (A_member_name A_member_info_a) "4x2").
  change "get test_object.a"
    with (get_command "test_object" (A_member_name A_member_info_a)).
  unfold session. rewrite Hs. cbv beta iota. unfold world, returned.
  by rewrite Hg.
Defined.

(** C4, on the code.  [set id.f=text] followed by [get id.f] on a
    registered object, for every member [f] and every text: both calls
    return the empty string, since the member map of the object is
    empty; neither returns the text. *)
Theorem set_get_round_trip_fails (id value : string) (m : A_member_info)
    (obj : addr) (w : World) :
  path_segment id → lacks " " value → objects_A w !! id = Some obj →
  session A__reflect_members
    [set_command id (A_member_name m) value; get_command id (A_member_name m)] w
  = [Some (Ok ""); Some (Ok "")].
Proof.
  intros Hid Hv Hobj.
  destruct (member_not_found id m value obj w Hid Hv Hobj) as [Hset Hget].
  unfold session. rewrite Hset. simpl. by rewrite Hget.
Qed.

(** The first two calls of [main], which asserts that both return
    ["42"]. *)
Lemma set_get_round_trip_fails_witness :
  (objects_A main_world !! "test_object" = Some 0%nat ∧
   lexical_cast_int "42" = Ok 42) ∧
  session A__reflect_members ["set test_object.a=42"; "get test_object.a"]
    main_world = [Some (Ok ""); Some (Ok "")].
Proof.
  split; [by vm_compute|].
  apply (set_get_round_trip_fails "test_object" "42" A_member_info_a 0%nat
           main_world); by vm_compute.
Defined.

(** ** Paths through the nested member [d] *)

Section NestedPaths.
Variable A_reflect_members : list A_member_info.

Abbreviation body := (parseAndExecute_body A_reflect_members).
Abbreviation call := (parseAndExecute A_reflect_members).

Lemma parseAndExecute_fuel_mono fuel fuel' cmd w o :
  parseAndExecute_fuel A_reflect_members fuel cmd w = Some o →
  (fuel ≤ fuel')%nat →
  parseAndExecute_fuel A_reflect_members fuel' cmd w = Some o.
Proof.
  revert fuel' cmd. induction fuel as [|fuel IH]; intros fuel' cmd; [done|].
  destruct fuel' as [|fuel']; [lia|]. simpl.
  destruct (parseAndExecute_body _ cmd w); [done|].
  intros Hcall Hle. apply IH; [done|lia].
Qed.

(** The call returns what the nested call returns. *)
Lemma parseAndExecute_Recurse cmd cmd' w :
  body cmd w = Recurse cmd' → call cmd w = call cmd' w.
Proof.
  intros Hbody.
  destruct (parseAndExecute_total A_reflect_members cmd' w) as [o Ho].
  rewrite Ho. unfold parseAndExecute. simpl. rewrite Hbody.
  apply parseAndExecute_body_Recurse in Hbody as (_ & _ & _ & _ & _ & _ & Hlen).
  eapply parseAndExecute_fuel_mono; [exact Ho|lia].
Qed.

(** A path [d.subPath] on a registered object: when [d] is reflected
    the call is the call for [subPath] on the same root identifier, so
    [subPath] is resolved in the member map of the root object; when [d]
    is not reflected the call returns the empty string. *)
Lemma get_nested_call id subPath obj w :
  path_segment id → lacks " " subPath → objects_A w !! id = Some obj →
  call (get_command id ("d" +:+ "." +:+ subPath)) w
  = if decide (A_member_info_d ∈ A_reflect_members)
    then call (get_command id subPath) w
    else Some (mkOutcome (Ok "") [] w).
Proof.
  intros Hid Hp Hobj.
  assert (body (get_command id ("d" +:+ "." +:+ subPath)) w
          = if decide (A_member_info_d ∈ A_reflect_members)
            then Recurse (get_command id subPath)
            else Return (mkOutcome (Ok "") [] w)) as Hbody.
  { rewrite get_command_body by (done || solve_lacks).
    rewrite parseAndExecute_resolve_eq by apply Hid.
    unfold getObject. rewrite Hobj.
    change (find "." ("d" +:+ "." +:+ subPath)) with (Some (String.length "d")).
    cbv beta iota. rewrite parseAndExecute_nested_eq by done.
    rewrite (Reflector_A_reflect_member _ obj A_member_info_d).
    case_decide; [|done]. rewrite decide_True by done.
    unfold nested_command, get_command.
    by rewrite decide_False, app_nil_r. }
  case_decide.
  - by apply parseAndExecute_Recurse.
  - by apply parseAndExecute_Return.
Qed.

Lemma set_nested_call id subPath value obj w :
  path_segment id → lacks " " subPath → lacks "=" subPath → lacks " " value →
  objects_A w !! id = Some obj →
  call (set_command id ("d" +:+ "." +:+ subPath) value) w
  = if decide (A_member_info_d ∈ A_reflect_members)
    then call (set_command id subPath value) w
    else Some (mkOutcome (Ok "") [] w).
Proof.
  intros Hid Hp Hpe Hv Hobj.
  assert (body (set_command id ("d" +:+ "." +:+ subPath) value) w
          = if decide (A_member_info_d ∈ A_reflect_members)
            then Recurse (set_command id subPath value)
            else Return (mkOutcome (Ok "") [] w)) as Hbody.
  { rewrite set_command_body by (done || solve_lacks).
    rewrite parseAndExecute_resolve_eq by apply Hid.
    unfold getObject. rewrite Hobj.
    change (find "." ("d" +:+ "." +:+ subPath)) with (Some (String.length "d")).
    cbv beta iota. rewrite parseAndExecute_nested_eq by done.
    rewrite (Reflector_A_reflect_member _ obj A_member_info_d).
    case_decide; [|done]. rewrite decide_True by done.
    unfold nested_command, set_command.
    by rewrite decide_True. }
  case_decide.
  - by apply parseAndExecute_Recurse.
  - by apply parseAndExecute_Return.
Qed.

(** C1, on the code.  After [A a("test_object")] the root member [a]
    holds 1 and the nested member [d.a] holds 2, which is what the
    accessor of [a] in the member map of [d] reads.  [get
    test_object.d.a] returns ["1"] when [a] and [d] are reflected, the
    value of the root member, and the empty string otherwise: never
    ["2"]. *)
Theorem nested_get_reads_root :
  getValue (Record_member_accessor Record_member_info_a (Ptr_A_d 0%nat)) main_world
  = Ok "2" ∧
  Reflector_Record_reflect Record_declared_members (Ptr_A_d 0%nat) !! "a"
  = Some (Record_member_accessor Record_member_info_a (Ptr_A_d 0%nat)) ∧
  call "get test_object.d.a" main_world
  = Some (if decide (A_member_info_d ∈ A_reflect_members) then
            if decide (A_member_info_a ∈ A_reflect_members)
            then mkOutcome (Ok "1") [] main_world
            else mkOutcome (Ok "") ["Member not found: a"] main_world
          else mkOutcome (Ok "") [] main_world).
Proof.
  split_and!; [by vm_compute..|].
  change "get test_object.d.a"
    with (get_command "test_object" ("d" +:+ "." +:+ "a")).
  rewrite (get_nested_call _ _ 0%nat) by (by vm_compute).
  case_decide; [|done].
  by rewrite (get_member_call _ "test_object" A_member_info_a 0%nat)
    by (by vm_compute).
Qed.

(** C2, on the code.  [set test_object.d.b=hello_world] returns the
    empty string and leaves [d.b] as it was: when [d] is reflected the
    nested call looks [b] up in the member map of the root object, which
    has no member [b]. *)
Theorem nested_set_of_b_fails :
  call "set test_object.d.b=hello_world" main_world
  = Some (if decide (A_member_info_d ∈ A_reflect_members)
          then mkOutcome (Ok "") ["Member not found: b"] main_world
          else mkOutcome (Ok "") [] main_world).
Proof.
  change "set test_object.d.b=hello_world"
    with (set_command "test_object" ("d" +:+ "." +:+ "b") "hello_world").
  rewrite (set_nested_call _ _ _ 0%nat) by (by vm_compute).
  case_decide; [|done].
  apply parseAndExecute_Return.
  rewrite set_command_body by (by vm_compute).
  rewrite parseAndExecute_resolve_eq by (by vm_compute).
  change (getObject "test_object" (objects_A main_world)) with (Some 0%nat).
  change (find "." "b") with (@None nat). cbv beta iota.
  apply parseAndExecute_member_absent.
  destruct (Reflector_A_reflect _ _ !! "b") as [it|] eqn:Hit; [|done].
  by apply Reflector_A_reflect_Some in Hit as ([] & _ & ? & _).
Qed.
End NestedPaths.

(** ** The calls of [main]

    What each call of [main] returns, in sequence.  [main] asserts the
    results ["42"; "42"; "666"; "666"; "hello_world"; "hello_world"] and
    five empty strings. *)

Example main_session :
  session A__reflect_members main_commands main_world
  = [Some (Ok ""); Some (Ok ""); Some (Ok ""); Some (Ok "");
     Some (Ok ""); Some (Ok "");
     Some (Ok ""); Some (Ok ""); Some (Ok ""); Some (Ok ""); Some (Ok "")].
Proof. by vm_compute. Qed.

(** * Further properties of the code *)

(** ** The tokenizer *)

Lemma tokenize_from_space token s1 s2 :
  tokenize_from token (s1 +:+ " " +:+ s2)
  = (tokenize_from token s1 ++ tokenize s2)%list.
Proof.
  revert token. induction s1 as [|c s1 IH]; intros token.
  - rewrite app_nil_l, app_cons, app_nil_l. simpl. by case_decide.
  - rewrite app_cons. simpl. destruct (Ascii.eqb c " ").
    + case_decide; [apply IH|]. simpl. f_equal. apply IH.
    + apply IH.
Qed.

(** X2.  Every token [tokenize] returns is non-empty and contains no
    space, whatever the command. *)
Theorem tokens_are_words (cmd : string) :
  Forall (λ t, t ≠ "" ∧ lacks " " t) (tokenize cmd).
Proof.
  apply Forall_forall. intros t Ht.
  destruct (tokenize_token cmd t Ht). done.
Qed.

(** X3.  A space splits the work of the tokenizer: the tokens of
    [s1 + " " + s2] are the tokens of [s1] followed by those of [s2], so
    leading, trailing and repeated spaces add no token. *)
Theorem tokenize_space (s1 s2 : string) :
  tokenize (s1 +:+ " " +:+ s2) = (tokenize s1 ++ tokenize s2)%list.
Proof. apply tokenize_from_space. Qed.

(** X4.  Joining words with single spaces and tokenizing gives the
    words back. *)
Theorem tokenize_concat (tokens : list string) :
  Forall (λ t, t ≠ "" ∧ lacks " " t) tokens →
  tokenize (String.concat " " tokens) = tokens.
Proof.
  induction tokens as [|t tokens IH]; intros Hall; [done|].
  destruct tokens as [|t' tokens].
  - apply Forall_cons in Hall as [[Hne Hl] _]. simpl. unfold tokenize.
    rewrite tokenize_from_lacks, app_nil_l by done. by rewrite decide_False.
  - apply Forall_cons in Hall as [[Hne Hl] Hall].
    change (String.concat " " (t :: t' :: tokens))
      with (t +:+ " " +:+ String.concat " " (t' :: tokens)).
    unfold tokenize at 1. rewrite tokenize_from_space, IH by done.
    rewrite tokenize_from_lacks, app_nil_l by done. by rewrite decide_False.
Qed.

Lemma tokenize_concat_witness :
  Forall (λ t, t ≠ "" ∧ lacks " " t) ["set"; "test_object.a=42"] ∧
  tokenize (String.concat " " ["set"; "test_object.a=42"])
  = ["set"; "test_object.a=42"].
Proof.
  assert (Hall : Forall (λ t, t ≠ "" ∧ lacks " " t) ["set"; "test_object.a=42"])
    by (repeat constructor; by vm_compute).
  split; [exact Hall|]. exact (tokenize_concat _ Hall).
Defined.

(** ** The dispatcher reads two tokens *)

(** X5.  [parseAndExecute] reads the first two tokens of the command
    and nothing else: commands that agree on them (whatever follows,
    however the spaces are laid out) have the same outcome. *)
Theorem only_two_tokens_matter (A_reflect_members : list A_member_info)
    (cmd1 cmd2 : string) (w : World) :
  take 2 (tokenize cmd1) = take 2 (tokenize cmd2) →
  parseAndExecute A_reflect_members cmd1 w
  = parseAndExecute A_reflect_members cmd2 w.
Proof.
  intros Htok.
  assert (parseAndExecute_body A_reflect_members cmd1 w
          = parseAndExecute_body A_reflect_members cmd2 w) as Hbody.
  { unfold parseAndExecute_body.
    destruct (tokenize cmd1) as [|o1 [|p1 r1]], (tokenize cmd2) as [|o2 [|p2 r2]];
      simpl in Htok; try discriminate; try (injection Htok as -> ->);
      reflexivity. }
  destruct (parseAndExecute_body A_reflect_members cmd1 w) as [o|cmd'] eqn:H1.
  - rewrite (parseAndExecute_Return _ _ _ _ H1).
    symmetry. by apply parseAndExecute_Return.
  - rewrite (parseAndExecute_Recurse _ _ _ _ H1).
    symmetry. by apply parseAndExecute_Recurse.
Qed.

Lemma only_two_tokens_matter_witness :
  take 2 (tokenize "  get   test_object.a  and more ")
  = take 2 (tokenize "get test_object.a") ∧
  parseAndExecute A__reflect_members "  get   test_object.a  and more " main_world
  = parseAndExecute A__reflect_members "get test_object.a" main_world.
Proof.
  split; [by vm_compute|].
  apply (only_two_tokens_matter A__reflect_members
           "  get   test_object.a  and more " "get test_object.a" main_world).
  by vm_compute.
Defined.

(** ** The codec of [int] *)

Lemma digits_value_cons acc c s d :
  digit_value c = Some d →
  digits_value acc (String c s) = digits_value (10 * acc + d) s.
Proof. simpl. by intros ->. Qed.

Ltac read_digit k :=
  rewrite (digits_value_cons _ _ _ k) by (by vm_compute).

(** The digits of [d] read after digits of value [p]. *)
Lemma digits_value_pos (d : Decimal.uint) (p : positive) :
  digits_value (Z.pos p) (NilEmpty.string_of_uint d)
  = Some (Z.pos (Pos.of_uint_acc d p)).
Proof.
  revert p.
  induction d as [|d IH|d IH|d IH|d IH|d IH|d IH|d IH|d IH|d IH|d IH];
    intros p; [done|..];
    simpl NilEmpty.string_of_uint; simpl Pos.of_uint_acc;
    [read_digit 0|read_digit 1|read_digit 2|read_digit 3|read_digit 4
    |read_digit 5|read_digit 6|read_digit 7|read_digit 8|read_digit 9];
    rewrite <-IH; f_equal; lia.
Qed.

Lemma digits_value_of_uint (d : Decimal.uint) :
  digits_value 0 (NilEmpty.string_of_uint d) = Some (Z.of_N (Pos.of_uint d)).
Proof.
  induction d as [|d IH|d IH|d IH|d IH|d IH|d IH|d IH|d IH|d IH|d IH];
    [done|..];
    simpl NilEmpty.string_of_uint; simpl Pos.of_uint;
    [read_digit 0|read_digit 1|read_digit 2|read_digit 3|read_digit 4
    |read_digit 5|read_digit 6|read_digit 7|read_digit 8|read_digit 9];
    [exact IH|apply digits_value_pos..].
Qed.

Lemma digits_value_to_uint (p : positive) :
  digits_value 0 (NilEmpty.string_of_uint (Pos.to_uint p)) = Some (Z.pos p).
Proof.
  by rewrite digits_value_of_uint, DecimalPos.Unsigned.of_to.
Qed.

Lemma string_of_uint_lacks ch (d : Decimal.uint) :
  digit_value ch = None → lacks ch (NilEmpty.string_of_uint d).
Proof.
  intros Hch.
  induction d as [|d IH|d IH|d IH|d IH|d IH|d IH|d IH|d IH|d IH|d IH];
    [apply lacks_nil|..];
    (apply lacks_cons; split; [|exact IH]);
    intros <-; by vm_compute in Hch.
Qed.

Lemma string_of_uint_nonempty (p : positive) :
  ∃ c rest, NilEmpty.string_of_uint (Pos.to_uint p) = String c rest ∧
            is_Some (digit_value c).
Proof.
  pose proof (Unsigned.to_uint_nonnil p) as Hnil.
  destruct (Pos.to_uint p); [done|..]; simpl; eexists _, _;
    (split; [done|]); eexists; vm_compute; reflexivity.
Qed.

Lemma to_string_int_pos (p : positive) :
  to_string_int (Z.pos p) = NilEmpty.string_of_uint (Pos.to_uint p).
Proof.
  unfold to_string_int. simpl.
  pose proof (Unsigned.to_uint_nonnil p) as Hnil.
  by destruct (Pos.to_uint p).
Qed.

Lemma to_string_int_neg (p : positive) :
  to_string_int (Z.neg p) = String "-" (NilEmpty.string_of_uint (Pos.to_uint p)).
Proof.
  unfold to_string_int. simpl.
  pose proof (Unsigned.to_uint_nonnil p) as Hnil.
  by destruct (Pos.to_uint p).
Qed.

Lemma lcast_ret_unsigned_to_uint (p : positive) :
  Z.pos p ≤ UINT_MAX →
  lcast_ret_unsigned (NilEmpty.string_of_uint (Pos.to_uint p)) = Some (Z.pos p).
Proof.
  intros Hle. unfold lcast_ret_unsigned. rewrite digits_value_to_uint.
  destruct (string_of_uint_nonempty p) as (c & rest & -> & _).
  destruct (Z.leb_spec (Z.pos p) UINT_MAX); [done|lia].
Qed.

(** A character that is neither a digit nor the minus sign does not
    occur in the decimal text of an [int]. *)
Lemma to_string_int_lacks ch (z : Z) :
  digit_value ch = None → ch ≠ "-"%char → lacks ch (to_string_int z).
Proof.
  intros Hch Hminus. destruct z as [|p|p].
  - apply lacks_cons. split; [|apply lacks_nil]. intros <-. by vm_compute in Hch.
  - rewrite to_string_int_pos. by apply string_of_uint_lacks.
  - rewrite to_string_int_neg. apply lacks_cons.
    split; [done|]. by apply string_of_uint_lacks.
Qed.

Lemma lexical_cast_int_to_string_int (val : Z) :
  is_int val → lexical_cast_int (to_string_int val) = Ok val.
Proof.
  unfold is_int, INT_MIN, INT_MAX. intros Hval. destruct val as [|p|p].
  - done.
  - rewrite to_string_int_pos.
    destruct (string_of_uint_nonempty p) as (c & rest & Hs & [d Hd]).
    unfold lexical_cast_int. rewrite Hs.
    destruct (Ascii.eqb_spec c "-") as [->|_]; [by vm_compute in Hd|].
    destruct (Ascii.eqb_spec c "+") as [->|_]; [by vm_compute in Hd|].
    simpl orb. cbv iota. rewrite <-Hs.
    rewrite lcast_ret_unsigned_to_uint by (unfold UINT_MAX; lia).
    unfold INT_MAX. destruct (Z.leb_spec (Z.pos p) 2147483647); [done|lia].
  - rewrite to_string_int_neg. unfold lexical_cast_int.
    change (Ascii.eqb "-" "-") with true. simpl orb. cbv iota.
    rewrite lcast_ret_unsigned_to_uint by (unfold UINT_MAX; lia).
    unfold INT_MAX. destruct (Z.leb_spec (Z.pos p) (2147483647 + 1)); [done|lia].
Qed.

(** X6.  [TypeTraits<int>]: [fromString(toString(val))] is [val] for
    every value of [int]. *)
Theorem int_codec_round_trip (val : Z) :
  is_int val → lexical_cast_int (to_string_int val) = Ok val.
Proof. apply lexical_cast_int_to_string_int. Qed.

Lemma int_codec_round_trip_witness :
  is_int (-2147483648) ∧
  lexical_cast_int (to_string_int (-2147483648)) = Ok (-2147483648).
Proof.
  assert (Hval : is_int (-2147483648)) by (unfold is_int, INT_MIN, INT_MAX; lia).
  split; [exact Hval|]. exact (int_codec_round_trip _ Hval).
Defined.

Lemma digit_value_range c d : digit_value c = Some d → 0 ≤ d ≤ 9.
Proof.
  unfold digit_value.
  destruct (Z.leb_spec 48 (Z.of_nat (nat_of_ascii c))),
           (Z.leb_spec (Z.of_nat (nat_of_ascii c)) 57); simpl; try done.
  intros [= <-]. lia.
Qed.

Lemma digits_value_nonneg acc s v :
  digits_value acc s = Some v → 0 ≤ acc → 0 ≤ v.
Proof.
  revert acc. induction s as [|c s IH]; intros acc; simpl.
  - by intros [= <-].
  - destruct (digit_value c) as [d|] eqn:Hd; [|done].
    apply digit_value_range in Hd. intros Hv Hacc. apply (IH _ Hv). lia.
Qed.

Lemma lcast_ret_unsigned_nonneg s v : lcast_ret_unsigned s = Some v → 0 ≤ v.
Proof.
  unfold lcast_ret_unsigned. destruct s as [|c s]; [done|].
  destruct (digits_value 0 (String c s)) as [v'|] eqn:Hv; [|done].
  case_match; [|done]. intros [= <-]. by eapply digits_value_nonneg.
Qed.

Lemma lexical_cast_int_is_int (str : string) (val : Z) :
  lexical_cast_int str = Ok val → is_int val.
Proof.
  unfold lexical_cast_int, is_int, INT_MIN. destruct str as [|c rest]; [done|].
  destruct (lcast_ret_unsigned _) as [v|] eqn:Hv; [|done].
  apply lcast_ret_unsigned_nonneg in Hv.
  destruct (Ascii.eqb c "-").
  - destruct (Z.leb_spec v (INT_MAX + 1)); [|done].
    intros [= <-]. unfold INT_MAX in *. lia.
  - destruct (Z.leb_spec v INT_MAX); [|done].
    intros [= <-]. unfold INT_MAX in *. lia.
Qed.

(** X7.  [fromString] of [int] returns values of [int] only: every
    text it accepts denotes a number between [INT_MIN] and [INT_MAX]. *)
Theorem lexical_cast_int_range (str : string) (val : Z) :
  lexical_cast_int str = Ok val → is_int val.
Proof. apply lexical_cast_int_is_int. Qed.

Lemma lexical_cast_int_range_witness :
  lexical_cast_int "-2147483648" = Ok (-2147483648) ∧ is_int (-2147483648).
Proof.
  assert (H : lexical_cast_int "-2147483648" = Ok (-2147483648)) by (by vm_compute).
  split; [exact H|]. exact (lexical_cast_int_range _ _ H).
Defined.

(** ** The codecs of [Record] and [A] *)

Lemma TypeTraits_Record_fromString_body_toString (r val : Record_) :
  is_int (Record_a val) →
  TypeTraits_Record_fromString_body r (TypeTraits_Record_toString val)
  = Ok (mkRecord (Record_object_id r) (Record_a val) (Record_b val)).
Proof.
  intros Hval. unfold TypeTraits_Record_fromString_body, TypeTraits_Record_toString.
  rewrite app_cons, app_nil_l.
  rewrite find_app by (by apply to_string_int_lacks).
  rewrite substr_prefix, substr_suffix. simpl.
  by rewrite lexical_cast_int_to_string_int.
Qed.

Lemma TypeTraits_Record_fromString_toString (val : Record_)
    (objects : gmap string RecordPtr) :
  is_int (Record_a val) →
  TypeTraits_Record_fromString (TypeTraits_Record_toString val) objects
  = (Ok (mkRecord "default" (Record_a val) (Record_b val)),
     registerObject "default" Ptr_local objects).
Proof.
  intros Hval. unfold TypeTraits_Record_fromString. simpl.
  by rewrite TypeTraits_Record_fromString_body_toString.
Qed.

(** X8.  [TypeTraits<Record>]: [fromString(toString(val))] returns a
    [Record] with the members [a] and [b] of [val], whatever the text
    [b] is, and the identifier ["default"], under which it is
    registered. *)
Theorem Record_codec_round_trip (val : Record_)
    (objects : gmap string RecordPtr) :
  is_int (Record_a val) →
  TypeTraits_Record_fromString (TypeTraits_Record_toString val) objects
  = (Ok (mkRecord "default" (Record_a val) (Record_b val)),
     registerObject "default" Ptr_local objects).
Proof. apply TypeTraits_Record_fromString_toString. Qed.

Lemma Record_codec_round_trip_witness :
  let val := mkRecord "record_1" (-7) "a,b|c d" in
  is_int (Record_a val) ∧
  TypeTraits_Record_fromString (TypeTraits_Record_toString val) ∅
  = (Ok (mkRecord "default" (-7) "a,b|c d"), registerObject "default" Ptr_local ∅).
Proof.
  assert (Hval : is_int (-7)) by (unfold is_int, INT_MIN, INT_MAX; lia).
  split; [exact Hval|].
  exact (Record_codec_round_trip (mkRecord "record_1" (-7) "a,b|c d") ∅ Hval).
Defined.

(** X9.  [TypeTraits<A>]: the statements of [fromString] after the
    declaration of [a], run on [toString(val)], give [a] the member [a]
    of [val] and a member [d] with the members of [val.d] and the
    identifier ["default"]; [nonreflectable] and the identifier of [a]
    are not in the text and stay; the registry of [Record] loses its
    entry for ["default"]. *)
Theorem A_codec_round_trip (a val : A) (objects : gmap string RecordPtr) :
  is_int (A_a val) → is_int (Record_a (A_d val)) →
  TypeTraits_A_fromString_body a (TypeTraits_A_toString val) objects
  = (Ok (mkA (A_object_id a) (A_a val)
           (mkRecord "default" (Record_a (A_d val)) (Record_b (A_d val)))
           (A_nonreflectable a)),
     delete "default" objects).
Proof.
  intros Ha Hd. unfold TypeTraits_A_fromString_body, TypeTraits_A_toString.
  rewrite app_cons, app_nil_l.
  rewrite find_app by (by apply to_string_int_lacks).
  rewrite substr_prefix, substr_suffix. simpl.
  rewrite lexical_cast_int_to_string_int by done.
  rewrite TypeTraits_Record_fromString_toString by done. simpl.
  unfold Reflectable_dtor, unregisterObject, registerObject.
  rewrite decide_False by done. by rewrite delete_insert_eq.
Qed.

Lemma A_codec_round_trip_witness :
  let val := mkA "x" 42 (mkRecord "record_1" (-7) "hello") "n" in
  let a := mkA "default" 1 (mkRecord "record_1" 2 "hello") "nonreflectable" in
  (is_int (A_a val) ∧ is_int (Record_a (A_d val))) ∧
  TypeTraits_A_toString val = "42|-7,hello" ∧
  TypeTraits_A_fromString_body a "42|-7,hello" ∅
  = (Ok (mkA "default" 42 (mkRecord "default" (-7) "hello") "nonreflectable"),
     delete "default" ∅).
Proof.
  assert (H1 : is_int 42) by (unfold is_int, INT_MIN, INT_MAX; lia).
  assert (H2 : is_int (-7)) by (unfold is_int, INT_MIN, INT_MAX; lia).
  split; [by split|]. split; [by vm_compute|].
  exact (A_codec_round_trip
           (mkA "default" 1 (mkRecord "record_1" 2 "hello") "nonreflectable")
           (mkA "x" 42 (mkRecord "record_1" (-7) "hello") "n") ∅ H1 H2).
Defined.

(** ** Reading members, unknown members, paths with several dots *)

Section MemberPaths.
Variable A_reflect_members : list A_member_info.

Abbreviation call := (parseAndExecute A_reflect_members).

Lemma Reflector_A_reflect_None obj name :
  (∀ m, m ∈ A_reflect_members → A_member_name m ≠ name) →
  Reflector_A_reflect A_reflect_members obj !! name = None.
Proof.
  intros Hname.
  destruct (Reflector_A_reflect _ _ !! name) as [it|] eqn:Hit; [|done].
  apply Reflector_A_reflect_Some in Hit as (m & Hm & -> & _).
  by destruct (Hname m Hm).
Qed.

(** X11.  A name without ['.'] that is not the name of a reflected
    member (as for the plain member [nonreflectable]): [get id.name]
    and [set id.name=value] on a registered object return the empty
    string, report the member as not found and leave the state as it
    was. *)
Theorem unknown_member_not_found (id name value : string) (obj : addr)
    (w : World) :
  path_segment id → path_segment name → lacks " " value →
  objects_A w !! id = Some obj →
  (∀ m, m ∈ A_reflect_members → A_member_name m ≠ name) →
  let not_found := mkOutcome (Ok "") ["Member not found: " +:+ name] w in
  call (get_command id name) w = Some not_found ∧
  call (set_command id name value) w = Some not_found.
Proof.
  intros Hid (Hs & Hd & He) Hv Hobj Hname not_found.
  split; apply parseAndExecute_Return.
  - rewrite get_command_body by done.
    rewrite parseAndExecute_resolve_eq by apply Hid.
    unfold getObject. rewrite Hobj. unfold lacks in Hd. rewrite Hd.
    apply parseAndExecute_member_absent. by apply Reflector_A_reflect_None.
  - rewrite set_command_body by done.
    rewrite parseAndExecute_resolve_eq by apply Hid.
    unfold getObject. rewrite Hobj. unfold lacks in Hd. rewrite Hd.
    apply parseAndExecute_member_absent. by apply Reflector_A_reflect_None.
Qed.

(** The nested call of line 337 is made only when [d] is in the member
    map. *)
Lemma parseAndExecute_body_Recurse_d cmd w cmd' :
  parseAndExecute_body A_reflect_members cmd w = Recurse cmd' →
  A_member_info_d ∈ A_reflect_members.
Proof.
  assert (Hresolve : ∀ operation pathSpec value,
            parseAndExecute_resolve A_reflect_members operation pathSpec value w
            = Recurse cmd' → A_member_info_d ∈ A_reflect_members).
  { intros operation pathSpec value. unfold parseAndExecute_resolve.
    destruct (find "." pathSpec) as [firstDot|] eqn:Hdot; [|done].
    apply find_substr in Hdot as (objectId & memberPath & -> & Hl & -> & ->).
    simpl. destruct (getObject _ _) as [obj|]; [|done].
    destruct (find "." memberPath) as [pos|] eqn:Hpos.
    - apply find_Some in Hpos as (baseMember & subPath & -> & <- & Hlb).
      change (baseMember +:+ String "." subPath)
        with (baseMember +:+ "." +:+ subPath).
      rewrite parseAndExecute_nested_eq by done.
      destruct (_ !! baseMember) as [it|] eqn:Hit; [|done].
      case_decide as Hd; [|done]. subst baseMember. intros _.
      apply Reflector_A_reflect_Some in Hit as (m & Hm & Hname & _).
      by destruct m.
    - unfold parseAndExecute_member. repeat case_match; done. }
  unfold parseAndExecute_body, try_.
  destruct (tokenize cmd) as [|operation [|pathSpec rest]]; [done..|].
  case_decide; [|by apply Hresolve].
  destruct (find "=" pathSpec) as [eqPos|]; [|done].
  destruct (substr pathSpec (eqPos + 1) None) as [value|]; [|done].
  destruct (substr pathSpec 0 (Some eqPos)) as [pathSpec'|]; [|done].
  apply Hresolve.
Qed.

(** X13.  A path that continues after a segment other than [d] (a leaf
    member such as [a], or an unknown name): [get] and [set] return the
    empty string, write nothing to [std::cerr] and leave the state as it
    was. *)
Theorem path_through_other_member_fails (id base rest value : string)
    (obj : addr) (w : World) :
  path_segment id → path_segment base → base ≠ "d" →
  lacks " " rest → lacks "=" rest → lacks " " value →
  objects_A w !! id = Some obj →
  let failed := mkOutcome (Ok "") [] w in
  call (get_command id (base +:+ "." +:+ rest)) w = Some failed ∧
  call (set_command id (base +:+ "." +:+ rest) value) w = Some failed.
Proof.
  intros Hid (Hs & Hd & He) Hbase Hr Hre Hv Hobj failed.
  assert (find "." (base +:+ "." +:+ rest) = Some (String.length base)) as Hfind.
  { rewrite app_cons, app_nil_l. by apply find_app. }
  split; apply parseAndExecute_Return.
  - rewrite get_command_body by (done || solve_lacks).
    rewrite parseAndExecute_resolve_eq by apply Hid.
    unfold getObject. rewrite Hobj, Hfind.
    rewrite parseAndExecute_nested_eq by done.
    destruct (_ !! base); [|done]. by rewrite decide_False.
  - rewrite set_command_body by (done || solve_lacks).
    rewrite parseAndExecute_resolve_eq by apply Hid.
    unfold getObject. rewrite Hobj, Hfind.
    rewrite parseAndExecute_nested_eq by done.
    destruct (_ !! base); [|done]. by rewrite decide_False.
Qed.
End MemberPaths.

(** The plain member [nonreflectable] of the object of [main]. *)
Lemma unknown_member_not_found_witness :
  let not_found :=
    mkOutcome (Ok "") ["Member not found: nonreflectable"] main_world in
  parseAndExecute A__reflect_members "get test_object.nonreflectable" main_world
  = Some not_found ∧
  parseAndExecute A__reflect_members "set test_object.nonreflectable=42" main_world
  = Some not_found.
Proof.
  apply (unknown_member_not_found A__reflect_members "test_object"
           "nonreflectable" "42" 0%nat main_world); try (by vm_compute).
  intros m Hm. by destruct m.
Defined.

(** X12.  In the program [parseAndExecute] never calls itself: every
    activation returns without reaching line 337, for every command and
    state.  So a path through [d] fails like a path through any other
    member: [get id.d.rest] and [set id.d.rest=value] on a registered
    object return the empty string, write nothing to [std::cerr] and
    leave the state as it was. *)
Theorem path_through_d_fails (cmd id rest value : string) (obj : addr)
    (w : World) :
  (∃ o, parseAndExecute_body A__reflect_members cmd w = Return o ∧
        parseAndExecute A__reflect_members cmd w = Some o) ∧
  (path_segment id → lacks " " rest → lacks "=" rest → lacks " " value →
   objects_A w !! id = Some obj →
   let failed := mkOutcome (Ok "") [] w in
   parseAndExecute A__reflect_members (get_command id ("d" +:+ "." +:+ rest)) w
   = Some failed ∧
   parseAndExecute A__reflect_members
     (set_command id ("d" +:+ "." +:+ rest) value) w
   = Some failed).
Proof.
  split.
  - destruct (parseAndExecute_body A__reflect_members cmd w) as [o|cmd'] eqn:Hbody.
    + exists o. split; [done|]. by apply parseAndExecute_Return.
    + apply parseAndExecute_body_Recurse_d in Hbody.
      by destruct (A__reflect_members_empty _ Hbody).
  - intros Hid Hr Hre Hv Hobj. simpl.
    rewrite (get_nested_call _ id rest obj), (set_nested_call _ id rest value obj)
      by done.
    by rewrite !decide_False by apply A__reflect_members_empty.
Qed.

(** The nested commands of [main]. *)
Lemma path_through_d_fails_witness :
  let failed := mkOutcome (Ok "") [] main_world in
  objects_A main_world !! "test_object" = Some 0%nat ∧
  parseAndExecute A__reflect_members "get test_object.d.a" main_world = Some failed ∧
  parseAndExecute A__reflect_members "set test_object.d.a=666" main_world
  = Some failed.
Proof.
  split; [by vm_compute|].
  apply (path_through_d_fails "" "test_object" "a" "666" 0%nat main_world);
    by vm_compute.
Defined.

Lemma path_through_other_member_fails_witness :
  let failed := mkOutcome (Ok "") [] main_world in
  parseAndExecute A__reflect_members "get test_object.a.b" main_world = Some failed ∧
  parseAndExecute A__reflect_members "set test_object.a.b=1" main_world = Some failed.
Proof.
  apply (path_through_other_member_fails A__reflect_members "test_object" "a" "b"
           "1" 0%nat main_world); by vm_compute.
Defined.

(** ** The life cycle with colliding identifiers *)

Section LifecycleCollisions.
Context `{Countable T}.
Implicit Types (s : Instances T) (this : T) (op : lifecycle_op T).

Lemma apply_op_sound s op :
  (∀ this id, object_ids s !! this = Some id → id ≠ "") → registry_sound s →
  well_addressed_op op s →
  (∀ this id, object_ids (apply_op op s).2 !! this = Some id → id ≠ "") ∧
  registry_sound (apply_op op s).2.
Proof.
  intros Hne Hsound Hop. destruct op as [this id|this id|this]; simpl in *.
  - unfold construct, _register_self, registerObject.
    case_decide as Hid; simpl; [done|]. unfold registry_sound. simpl. split.
    + intros p i [[-> ->]|[_ Hi]]%lookup_insert_Some; [done|]. by eapply Hne.
    + intros i p [[-> ->]|[Hi Hp]]%lookup_insert_Some; apply lookup_insert_Some.
      * by left.
      * right. apply Hsound in Hp. split; [congruence|done].
  - destruct Hop as [old Hold].
    unfold rename, registerAs, _register_self, registerObject, unregisterObject.
    rewrite Hold. case_decide as Hid; simpl; [done|].
    rewrite decide_False by eauto. unfold registry_sound. simpl. split.
    + intros p i [[-> ->]|[_ Hi]]%lookup_insert_Some; [done|]. by eapply Hne.
    + intros i p [[-> ->]|[Hi [Ho Hp]%lookup_delete_Some]]%lookup_insert_Some;
        apply lookup_insert_Some.
      * by left.
      * right. apply Hsound in Hp. split; [congruence|done].
  - destruct Hop as [old Hold].
    unfold destroy, Reflectable_dtor, unregisterObject.
    rewrite Hold. simpl. rewrite decide_False by eauto.
    unfold registry_sound. simpl. split.
    + intros p i [_ Hi]%lookup_delete_Some. by eapply Hne.
    + intros i p [Hi Hp]%lookup_delete_Some. apply lookup_delete_Some.
      apply Hsound in Hp. split; [congruence|done].
Qed.

Lemma run_sound ops s :
  (∀ this id, object_ids s !! this = Some id → id ≠ "") → registry_sound s →
  well_addressed ops s → registry_sound (run ops s).
Proof.
  revert s. induction ops as [|op ops IH]; intros s Hne Hsound; simpl; [done|].
  intros [Hop Hops].
  destruct (apply_op_sound s op Hne Hsound Hop) as [Hne' Hsound'].
  by apply IH.
Qed.

(** X14.  The registry never points to a destroyed instance: after
    every sequence of constructions (where no instance lives), renames
    and destructions (of live instances), identifiers colliding or not,
    each entry of the registry points to a live instance that holds the
    key as its identifier. *)
Theorem registry_never_dangles (ops : list (lifecycle_op T)) :
  well_addressed ops no_instances → registry_sound (run ops no_instances).
Proof.
  apply run_sound.
  - intros this id. simpl. by rewrite lookup_empty.
  - intros id this. simpl. by rewrite lookup_empty.
Qed.

(** X15.  [registerAs] moves the entry: after renaming a live instance
    from [old] to a non-empty [id] the instance holds [id], the registry
    maps [id] to it and has no entry for [old] (when it differs), and
    every other entry and every other instance is as before. *)
Theorem rename_moves_entry s this (old id : string) :
  object_ids s !! this = Some old → old ≠ "" → id ≠ "" →
  ∃ s', rename this id s = (Ok tt, s') ∧
        object_ids s' !! this = Some id ∧
        objects s' !! id = Some this ∧
        (old ≠ id → objects s' !! old = None) ∧
        (∀ k, k ≠ id → k ≠ old → objects s' !! k = objects s !! k) ∧
        (∀ other, other ≠ this → object_ids s' !! other = object_ids s !! other).
Proof.
  intros Hold Hne Hid.
  unfold rename, registerAs, _register_self, registerObject, unregisterObject.
  rewrite Hold, !decide_False by done. simpl. eexists. split; [done|]. simpl.
  split_and!.
  - apply lookup_insert_Some. by left.
  - apply lookup_insert_Some. by left.
  - intros Hdiff. apply lookup_insert_None. split; [|done].
    apply lookup_delete_None. by left.
  - intros k Hk Hk'. destruct (objects s !! k) as [p|] eqn:Hp.
    + apply lookup_insert_Some. right. split; [done|].
      apply lookup_delete_Some. by split.
    + apply lookup_insert_None. split; [|done]. apply lookup_delete_None. by right.
  - intros other Hother. destruct (object_ids s !! other) as [i|] eqn:Hi.
    + apply lookup_insert_Some. right. by split.
    + apply lookup_insert_None. by split.
Qed.

(** X16.  Renaming a registered instance to the identifier it holds
    changes nothing. *)
Theorem rename_to_own_identifier s this (id : string) :
  object_ids s !! this = Some id → id ≠ "" → objects s !! id = Some this →
  rename this id s = (Ok tt, s).
Proof.
  intros Hid Hne Hreg.
  unfold rename, registerAs, _register_self, registerObject, unregisterObject.
  rewrite Hid, !decide_False by done. simpl. f_equal.
  destruct s as [ids objs]. simpl in *. f_equal.
  - by apply insert_id.
  - by apply insert_delete_id.
Qed.

(** X17.  Constructing an instance under a free identifier and
    destroying it restores the state: the live instances and the
    registry are as before the construction. *)
Theorem construct_destroy_restores s this (id : string) :
  object_ids s !! this = None → objects s !! id = None → id ≠ "" →
  destroy this (construct this id s).2 = (Ok tt, s).
Proof.
  intros Hfresh Hfree Hne.
  unfold construct, _register_self, registerObject.
  rewrite decide_False by done. simpl.
  unfold destroy, Reflectable_dtor, unregisterObject. simpl.
  assert (<[this:=id]> (object_ids s) !! this = Some id) as ->
    by (apply lookup_insert_Some; by left).
  rewrite decide_False by done. f_equal.
  destruct s as [ids objs]. simpl in *. f_equal.
  - by apply delete_insert_id.
  - by apply delete_insert_id.
Qed.
End LifecycleCollisions.

(** Two instances collide on ["k"]; the first is renamed and destroyed,
    the second destroyed and a third constructed. *)
Lemma registry_never_dangles_witness :
  let ops := [Construct 0%nat "k"; Construct 1%nat "k"; Rename 0%nat "j";
              Destroy 1%nat; Construct 2%nat "j"; Destroy 0%nat] in
  well_addressed ops no_instances ∧ registry_sound (run ops no_instances).
Proof.
  assert (Hops : well_addressed
                   [Construct 0%nat "k"; Construct 1%nat "k"; Rename 0%nat "j";
                    Destroy 1%nat; Construct 2%nat "j"; Destroy 0%nat]
                   no_instances) by compute_done.
  split; [exact Hops|]. exact (registry_never_dangles _ Hops).
Defined.

Lemma rename_moves_entry_witness :
  let s := run [Construct 0%nat "k"; Construct 1%nat "x"] no_instances in
  ∃ s', rename 0%nat "j" s = (Ok tt, s') ∧
        objects s' !! "j" = Some 0%nat ∧ objects s' !! "k" = None ∧
        objects s' !! "x" = Some 1%nat.
Proof.
  destruct (rename_moves_entry
              (run [Construct 0%nat "k"; Construct 1%nat "x"] no_instances)
              0%nat "k" "j")
    as (s' & Hren & _ & Hj & Hk & Hother & _); [by vm_compute..|].
  exists s'. split_and!; [exact Hren|exact Hj|by apply Hk|].
  rewrite Hother by done. by vm_compute.
Defined.

Lemma rename_to_own_identifier_witness :
  let s := run [Construct 0%nat "k"] no_instances in
  rename 0%nat "k" s = (Ok tt, s).
Proof.
  apply (rename_to_own_identifier
           (run [Construct 0%nat "k"] no_instances) 0%nat "k"); by vm_compute.
Defined.

Lemma construct_destroy_restores_witness :
  let s := run [Construct 0%nat "k"] no_instances in
  destroy 1%nat (construct 1%nat "x" s).2 = (Ok tt, s).
Proof.
  apply (construct_destroy_restores
           (run [Construct 0%nat "k"] no_instances) 1%nat "x"); by vm_compute.
Defined.

(** ** The objects behind the accessors *)

Lemma TypeTraits_Record_fromString_body_Ok r str r' :
  TypeTraits_Record_fromString_body r str = Ok r' →
  Record_object_id r' = Record_object_id r ∧
  (is_int (Record_a r) → is_int (Record_a r')).
Proof.
  unfold TypeTraits_Record_fromString_body.
  destruct (find "," str) as [pos|]; [|by intros [= ->]].
  destruct (substr str 0 (Some pos)) as [s1|]; simpl; [|done].
  destruct (lexical_cast_int s1) as [a|] eqn:Ha; simpl; [|done].
  destruct (substr str (pos + 1) None) as [b|]; simpl; [|done].
  intros [= <-]. simpl. split; [done|]. intros _.
  by eapply lexical_cast_int_is_int.
Qed.

Lemma TypeTraits_Record_fromString_Ok str objects r objs :
  TypeTraits_Record_fromString str objects = (Ok r, objs) →
  TypeTraits_Record_fromString_body (mkRecord "default" 0 "") str = Ok r ∧
  objs = <["default" := Ptr_local]> objects.
Proof.
  unfold TypeTraits_Record_fromString, _register_self, registerObject.
  rewrite decide_False by done.
  destruct (TypeTraits_Record_fromString_body _ str) as [r0|]; [|done].
  by intros [= -> <-].
Qed.

(** X18.  A successful [set] of the member [d] overwrites the
    identifier of [d] with ["default"]: the entry the constructor of
    [d] made in the registry of [Record] is then not removed when the
    object is destroyed, and points to the destroyed object. *)
Theorem set_of_d_leaves_dangling_entry (obj : addr) (o : A) (value : string)
    (r : Record_) (w : World) :
  heap w !! obj = Some o →
  objects_Record w !! Record_object_id (A_d o) = Some (Ptr_A_d obj) →
  Record_object_id (A_d o) ≠ "default" →
  TypeTraits_Record_fromString_body (mkRecord "default" 0 "") value = Ok r →
  ∃ w1 w2,
    setValue (MemberInfo_Record (Ptr_A_d obj)) value w = (Ok true, w1) ∧
    Record_object_id <$> load_Record (Ptr_A_d obj) w1 = Some "default" ∧
    A_dtor obj w1 = (Ok tt, w2) ∧
    heap w2 !! obj = None ∧
    objects_Record w2 !! Record_object_id (A_d o) = Some (Ptr_A_d obj).
Proof.
  intros Ho Hreg Hid Hr.
  destruct (TypeTraits_Record_fromString_body_Ok _ _ _ Hr) as [Hrid _].
  simpl in Hrid.
  unfold setValue, TypeTraits_Record_fromString, _register_self, registerObject.
  rewrite decide_False by done. rewrite Hr. simpl. rewrite Ho. simpl.
  eexists _, _. split; [done|]. simpl. rewrite lookup_insert_eq. simpl.
  split; [by rewrite Hrid|]. unfold A_dtor. simpl. rewrite lookup_insert_eq.
  split; [reflexivity|]. simpl. split; [apply lookup_delete_eq|].
  rewrite Hrid. unfold Reflectable_dtor, unregisterObject.
  rewrite !decide_False by done.
  rewrite !lookup_delete_ne, lookup_insert_ne by done. done.
Qed.

Lemma set_of_d_leaves_dangling_entry_witness :
  ∃ w1 w2,
    setValue (MemberInfo_Record (Ptr_A_d 0%nat)) "5,x" main_world = (Ok true, w1) ∧
    A_dtor 0%nat w1 = (Ok tt, w2) ∧
    heap w2 !! 0%nat = None ∧
    objects_Record w2 !! "record_1" = Some (Ptr_A_d 0%nat).
Proof.
  destruct (set_of_d_leaves_dangling_entry 0%nat
              (mkA "test_object" 1 (mkRecord "record_1" 2 "hello") "nonreflectable")
              "5,x" (mkRecord "default" 5 "x") main_world)
    as (w1 & w2 & Hset & _ & Hdtor & Hheap & Hreg); [by vm_compute..|].
  by exists w1, w2.
Defined.

(** X19.  Every [setValue] of a [Record] member, whether the text is
    accepted or not and whatever the accessor points to, constructs and
    destroys a [Record] named ["default"]: it leaves the registry of
    [Record] without an entry for ["default"] and with every other entry
    as it was. *)
Theorem setValue_Record_unregisters_default (member : RecordPtr)
    (value : string) (w : World) :
  objects_Record (setValue (MemberInfo_Record member) value w).2
  = delete "default" (objects_Record w).
Proof.
  unfold setValue.
  destruct (TypeTraits_Record_fromString value (objects_Record w))
    as [[tmp|e] objs] eqn:Hfrom.
  - apply TypeTraits_Record_fromString_Ok in Hfrom as [Hbody ->].
    apply TypeTraits_Record_fromString_body_Ok in Hbody as [-> _]. simpl.
    assert (Reflectable_dtor "default" (<["default":=Ptr_local]> (objects_Record w))
            = delete "default" (objects_Record w)) as Hdel.
    { unfold Reflectable_dtor, unregisterObject. rewrite decide_False by done.
      apply delete_insert_eq. }
    destruct member as [obj|]; simpl; [|done].
    by destruct (heap w !! obj).
  - simpl. revert Hfrom.
    unfold TypeTraits_Record_fromString, _register_self, registerObject.
    rewrite decide_False by done.
    destruct (TypeTraits_Record_fromString_body _ value); [done|].
    intros [= _ <-]. unfold Reflectable_dtor, unregisterObject.
    rewrite decide_False by done. apply delete_insert_eq.
Qed.

Lemma ints_in_range_insert w obj o' :
  ints_in_range w → is_int (A_a o') → is_int (Record_a (A_d o')) →
  ints_in_range (set_heap (<[obj:=o']> (heap w)) w).
Proof.
  intros Hw Ha Hd p o. simpl.
  intros [[<- <-]|[_ Ho]]%lookup_insert_Some; [done|]. by eapply Hw.
Qed.

Lemma ints_in_range_heap w w' : heap w' = heap w → ints_in_range w → ints_in_range w'.
Proof. intros Hh Hw p o. rewrite Hh. apply Hw. Qed.

Lemma setValue_ints_in_range mi value w :
  ints_in_range w → ints_in_range (setValue mi value w).2.
Proof.
  intros Hw. destruct mi as [[obj|[obj|]]|[[obj|]]|[obj|]]; simpl.
  - destruct (lexical_cast_int value) as [v|] eqn:Hv; simpl; [|done].
    destruct (heap w !! obj) as [o|] eqn:Ho; simpl; [|done].
    apply ints_in_range_insert; simpl; [done| |by eapply Hw].
    by eapply lexical_cast_int_is_int.
  - destruct (lexical_cast_int value) as [v|] eqn:Hv; simpl; [|done].
    destruct (heap w !! obj) as [o|] eqn:Ho; simpl; [|done].
    rewrite ?Ho. simpl.
    apply ints_in_range_insert; simpl; [done|by eapply Hw|].
    by eapply lexical_cast_int_is_int.
  - by destruct (lexical_cast_int value).
  - destruct (heap w !! obj) as [o|] eqn:Ho; simpl; [|done].
    rewrite ?Ho. simpl.
    apply ints_in_range_insert; simpl; [done|by eapply Hw..].
  - done.
  - destruct (TypeTraits_Record_fromString value (objects_Record w))
      as [[tmp|e] objs] eqn:Hfrom; [|by eapply ints_in_range_heap].
    apply TypeTraits_Record_fromString_Ok in Hfrom as [Hbody _].
    apply TypeTraits_Record_fromString_body_Ok in Hbody as [_ Htmp].
    destruct (heap w !! obj) as [o|] eqn:Ho; simpl;
      [|by eapply ints_in_range_heap].
    eapply ints_in_range_heap; [done|].
    apply ints_in_range_insert; simpl; [done|by eapply Hw|].
    apply Htmp. by vm_compute.
  - destruct (TypeTraits_Record_fromString value (objects_Record w))
      as [[tmp|e] objs]; by eapply ints_in_range_heap.
Qed.

Lemma A_ctor_ints_in_range this id w :
  ints_in_range w → ints_in_range (A_ctor this id w).2.
Proof.
  intros Hw. unfold A_ctor, _register_self, registerObject.
  case_decide; simpl; [done|]. intros p o. simpl.
  intros [[<- <-]|[_ Ho]]%lookup_insert_Some; [by vm_compute|]. by eapply Hw.
Qed.

(** X20.  The [int] members never leave the range of [int]: when every
    [int] member of every live object holds a value between [INT_MIN]
    and [INT_MAX], so it is after every call of [parseAndExecute],
    whatever the command and the tuple of reflected members. *)
Theorem parseAndExecute_keeps_ints_in_range
    (A_reflect_members : list A_member_info) (cmd : string) (w : World) :
  ints_in_range w →
  ∃ o, parseAndExecute A_reflect_members cmd w = Some o ∧ ints_in_range (world o).
Proof.
  intros Hw.
  destruct (parseAndExecute_outcome A_reflect_members cmd w)
    as (o & Ho & [[_ Hsame]|(op & rest & _ & Hacc)]);
    exists o; (split; [done|]); [by rewrite Hsame|].
  destruct Hacc as (id & obj & m & v & _ & _ & [[_ ->]|[_ ->]]); simpl; [|done].
  by apply setValue_ints_in_range.
Qed.

Lemma parseAndExecute_keeps_ints_in_range_witness :
  ints_in_range main_world ∧
  ∃ o, parseAndExecute A__reflect_members "set test_object.a=-2147483648" main_world
       = Some o ∧ ints_in_range (world o).
Proof.
  assert (Hmain : ints_in_range main_world).
  { apply A_ctor_ints_in_range. intros p o. simpl. by rewrite lookup_empty. }
  split; [exact Hmain|].
  exact (parseAndExecute_keeps_ints_in_range A__reflect_members _ _ Hmain).
Defined.

(** X10.  Set and read through an accessor: on every accessor that
    points into a live object, a text that [fromString] of the member's
    type accepts makes [setValue] return [true], and [getValue] then
    returns [toString] of the decoded value, which need not be the text
    that was given. *)
Theorem accessor_set_then_get (mi : MemberInfo) (value text old : string)
    (w : World) :
  reencode mi value = Ok text → getValue mi w = Ok old →
  ∃ w', setValue mi value w = (Ok true, w') ∧ getValue mi w' = Ok text.
Proof.
  intros Hacc Hold. apply setValue_accepted; [done|]. rewrite Hold. by eexists.
Qed.

(** The member [d.a] of the object of [main], set from [+42]. *)
Lemma accessor_set_then_get_witness :
  let mi := MemberInfo_int (Ptr_Record_a (Ptr_A_d 0%nat)) in
  (reencode mi "+42" = Ok "42" ∧ getValue mi main_world = Ok "2") ∧
  ∃ w', setValue mi "+42" main_world = (Ok true, w') ∧ getValue mi w' = Ok "42".
Proof.
  split; [by vm_compute|].
  apply (accessor_set_then_get (MemberInfo_int (Ptr_Record_a (Ptr_A_d 0%nat)))
           "+42" "42" "2" main_world); by vm_compute.
Defined.

Ltac frame_unchanged :=
  eexists _, _; split; [reflexivity|]; split; [auto|by left].

Ltac frame_changed :=
  eexists _, _; split; [reflexivity|]; split; [auto|right; by eexists _, _, _].

(** What [setValue] can change: the registry of [Record] at
    ["default"], and the object the accessor points into, short of its
    identifier and of [nonreflectable]. *)
Lemma setValue_effect mi value w :
  ∃ h objs,
    (setValue mi value w).2
    = {| heap := h; objects_A := objects_A w; objects_Record := objs |} ∧
    (objs = objects_Record w ∨ objs = delete "default" (objects_Record w)) ∧
    (h = heap w ∨
     ∃ obj o o', MemberInfo_owner mi = Some obj ∧ heap w !! obj = Some o ∧
                 h = <[obj := o']> (heap w) ∧
                 A_object_id o' = A_object_id o ∧
                 A_nonreflectable o' = A_nonreflectable o).
Proof.
  assert (Hdefault : ∀ tmp objs,
            TypeTraits_Record_fromString value (objects_Record w) = (tmp, objs) →
            match tmp with
            | Ok r => Reflectable_dtor (Record_object_id r) objs
            | Throw _ => objs
            end = delete "default" (objects_Record w)).
  { intros tmp objs. unfold TypeTraits_Record_fromString, _register_self,
      registerObject. rewrite decide_False by done.
    destruct (TypeTraits_Record_fromString_body _ value) as [r|] eqn:Hbody;
      intros [= <- <-].
    - apply TypeTraits_Record_fromString_body_Ok in Hbody as [-> _]. simpl.
      unfold Reflectable_dtor, unregisterObject. rewrite decide_False by done.
      apply delete_insert_eq.
    - unfold Reflectable_dtor, unregisterObject. rewrite decide_False by done.
      apply delete_insert_eq. }
  destruct w as [h objsA objsR]. simpl in Hdefault.
  destruct mi as [[obj|[obj|]]|[[obj|]]|[obj|]]; simpl.
  - destruct (lexical_cast_int value) as [v|]; simpl; [|frame_unchanged].
    destruct (h !! obj) as [o|] eqn:Ho; simpl; [|frame_unchanged].
    frame_changed.
  - destruct (lexical_cast_int value) as [v|]; simpl; [|frame_unchanged].
    destruct (h !! obj) as [o|] eqn:Ho; simpl; [|frame_unchanged]. rewrite ?Ho. simpl.
    frame_changed.
  - destruct (lexical_cast_int value); simpl; frame_unchanged.
  - destruct (h !! obj) as [o|] eqn:Ho; simpl; [|frame_unchanged]. rewrite ?Ho. simpl.
    frame_changed.
  - frame_unchanged.
  - destruct (TypeTraits_Record_fromString value objsR) as [[tmp|e] objs] eqn:Hfrom;
      specialize (Hdefault _ _ eq_refl); simpl in Hdefault.
    + destruct (h !! obj) as [o|] eqn:Ho; simpl; rewrite Hdefault; [|frame_unchanged].
      frame_changed.
    + simpl. rewrite Hdefault. frame_unchanged.
  - destruct (TypeTraits_Record_fromString value objsR) as [[tmp|e] objs] eqn:Hfrom;
      specialize (Hdefault _ _ eq_refl); simpl in Hdefault; simpl;
      rewrite Hdefault; frame_unchanged.
Qed.

(** X21.  The frame of [setValue], for every accessor, text and state,
    whether the text is accepted or not: the registry of [A] is as it
    was, and so is the registry of [Record] but for the key
    ["default"]; every object other than the one the accessor points
    into is as it was, and no object changes its identifier or its
    member [nonreflectable]. *)
Theorem setValue_frame (mi : MemberInfo) (value : string) (w : World) :
  objects_A (setValue mi value w).2 = objects_A w ∧
  (∀ id, id ≠ "default" →
     objects_Record (setValue mi value w).2 !! id = objects_Record w !! id) ∧
  (∀ obj, MemberInfo_owner mi ≠ Some obj →
     heap (setValue mi value w).2 !! obj = heap w !! obj) ∧
  (∀ obj, A_object_id <$> heap (setValue mi value w).2 !! obj
          = A_object_id <$> heap w !! obj) ∧
  (∀ obj, A_nonreflectable <$> heap (setValue mi value w).2 !! obj
          = A_nonreflectable <$> heap w !! obj).
Proof.
  destruct (setValue_effect mi value w) as (h & objs & -> & Hobjs & Hh). simpl.
  split_and!.
  - done.
  - intros id Hid. destruct Hobjs as [->| ->]; [done|].
    by rewrite lookup_delete_ne.
  - intros p Hp. destruct Hh as [->|(obj & o & o' & Hown & _ & -> & _)]; [done|].
    rewrite lookup_insert_ne; [done|]. congruence.
  - intros p. destruct Hh as [->|(obj & o & o' & _ & Ho & -> & Hid & _)]; [done|].
    destruct (decide (obj = p)) as [<-|Hp].
    + rewrite lookup_insert_eq, Ho. simpl. by rewrite Hid.
    + by rewrite lookup_insert_ne.
  - intros p. destruct Hh as [->|(obj & o & o' & _ & Ho & -> & _ & Hnr)]; [done|].
    destruct (decide (obj = p)) as [<-|Hp].
    + rewrite lookup_insert_eq, Ho. simpl. by rewrite Hnr.
    + by rewrite lookup_insert_ne.
Qed.

(** ** The lifetime of an [A] and sequences of calls *)

(** X22.  Construction and destruction of an [A] keep the registry of
    [A] free of dangling pointers: it stays so when an [A] is
    constructed where no object lives and when a live [A] is destroyed,
    and after the destruction no entry points to the destroyed
    object. *)
Theorem A_lifetime_keeps_registry_valid (fresh this : addr) (id : string)
    (w : World) :
  wf_world w → heap w !! fresh = None → is_Some (heap w !! this) →
  wf_world (A_ctor fresh id w).2 ∧
  wf_world (A_dtor this w).2 ∧
  ∀ k, objects_A (A_dtor this w).2 !! k ≠ Some this.
Proof.
  intros Hwf Hfresh [o Ho]. split; [by apply A_ctor_wf|].
  pose proof (A_dtor_wf this w Hwf) as Hwf'. split; [done|].
  intros k Hk. apply Hwf' in Hk as (_ & o' & Ho' & _).
  revert Ho'. unfold A_dtor. rewrite Ho. simpl. by rewrite lookup_delete_eq.
Qed.

Lemma A_lifetime_keeps_registry_valid_witness :
  wf_world main_world ∧
  wf_world (A_ctor 1%nat "test_object" main_world).2 ∧
  wf_world (A_dtor 0%nat main_world).2 ∧
  ∀ k, objects_A (A_dtor 0%nat main_world).2 !! k ≠ Some 0%nat.
Proof.
  split; [apply wf_world_main|].
  apply (A_lifetime_keeps_registry_valid 1%nat 0%nat "test_object" main_world);
    [apply wf_world_main|by vm_compute|eexists; by vm_compute].
Defined.

Lemma parseAndExecute_returns_wf ms cmd w :
  wf_world w →
  ∃ text log w',
    parseAndExecute ms cmd w = Some (mkOutcome (Ok text) log w') ∧ wf_world w'.
Proof.
  intros Hwf. destruct (parseAndExecute_outcome ms cmd w) as (o & Ho & Hcases).
  rewrite Ho. destruct o as [r log w']. simpl in *.
  destruct Hcases as [[-> ->]|(op & rest & _ & Hacc)]; [by eauto|].
  destruct Hacc as (id & obj & m & v & Hobj & _ & Hit).
  destruct (Hwf _ _ Hobj) as (_ & a & Ha & _).
  destruct Hit as [[_ [= -> -> ->]]|[_ [= -> -> ->]]].
  - destruct (setValue_returns m obj a v w Ha) as (b & w1 & Hset).
    pose proof (setValue_wf (A_member_accessor m obj) v w Hwf) as Hwf'.
    rewrite Hset in Hwf' |- *. simpl in *. destruct b; eauto.
  - rewrite (getValue_accessor _ _ _ _ Ha). eauto.
Qed.

(** X23.  A sequence of calls, as in [main]: from a state whose
    registry of [A] has no dangling pointer, every call of every
    sequence of command strings returns a string; none fails to
    terminate and none is left by an exception. *)
Theorem session_returns_strings (A_reflect_members : list A_member_info)
    (cmds : list string) (w : World) :
  wf_world w →
  length (session A_reflect_members cmds w) = length cmds ∧
  Forall (λ r, ∃ text, r = Some (Ok text)) (session A_reflect_members cmds w).
Proof.
  revert w. induction cmds as [|cmd cmds IH]; intros w Hwf; simpl; [done|].
  destruct (parseAndExecute_returns_wf A_reflect_members cmd w Hwf)
    as (text & log & w' & -> & Hwf'). simpl.
  destruct (IH w' Hwf') as [Hlen Hall]. split; [by rewrite Hlen|].
  constructor; [by eexists|done].
Qed.

Lemma session_returns_strings_witness :
  wf_world main_world ∧
  length (session A__reflect_members main_commands main_world)
  = length main_commands ∧
  Forall (λ r, ∃ text, r = Some (Ok text))
    (session A__reflect_members main_commands main_world).
Proof.
  split; [apply wf_world_main|].
  apply (session_returns_strings A__reflect_members main_commands main_world).
  apply wf_world_main.
Defined.
